(** * ELIT batching server: [elit/server/server.py]

    A shallow embedding of [ModelRunner], the batching scheduler behind the
    [/parse] routes, together with the part of the asyncio event loop it
    talks to (the clock, [call_at] timer handles, [Event], [Lock]).

    The Python code is cooperative: a coroutine runs without interruption
    from one [await] that really suspends to the next.  The places where
    [ModelRunner] can suspend are
    - [await self.needs_processing.wait()] (line 83), when the event is clear,
    - [await loop.run_in_executor(...)]    (line 101),
    - [await our_task["done_event"].wait()] (line 66),
    - [async with self.queue_lock]          (lines 59 and 89), when the lock
      is held by somebody else.
    Neither critical section contains an [await], so every segment between
    two such points is one transition of the machine below.  The worker
    thread only sees [batch], a fresh list of inputs, and shares no mutable
    object with the loop.

    Clock readings ([loop.time()], a task's ["time"], [max_wait], timer
    deadlines) are integers, in a unit of one's choice, instead of floats;
    the code only adds and compares them. *)

From Stdlib Require Import ZArith String.
From stdpp Require Import base list.

Open Scope Z_scope.

(** ** Python values that flow through the runner *)

(** Exceptions [ModelRunner]'s own code can raise.  [AttributeError] is what
    [None.set()], [None.clear()], [async with None] give before
    [model_runner] has created the event and the lock.  [DanglingRef] has no
    Python counterpart: it is what the embedding answers when a task
    reference points outside the store, which never happens (see
    [reachable_inv]). *)
Inductive pyexn :=
| HandlingError (msg : string) (code : Z)
| AttributeError
| DanglingRef.

(** Outcome of running a coroutine segment: it returns, raises, or reaches
    an [await] that has to suspend. *)
Inductive result (A : Type) :=
| Ok (a : A)
| Raise (e : pyexn)
| Suspend.
Arguments Ok {A} a.
Arguments Raise {A} e.
Arguments Suspend {A}.

(** A [loop.call_at] handle.  The only callback the runner ever registers is
    [self.needs_processing.set], so the handle does not store it.
    [scheduled] is true until the loop has run the callback. *)
Record TimerHandle := mkTimer {
  when : Z;
  cancelled : bool;
  scheduled : bool
}.

Definition outstanding (h : TimerHandle) : bool :=
  scheduled h && negb (cancelled h).

(** Python's [l[:k]]: a negative [k] counts from the end. *)
Definition py_slice_to {A} (k : Z) (l : list A) : list A :=
  if k <? 0 then take (Z.to_nat (Z.of_nat (length l) + k)) l
  else take (Z.to_nat k) l.

Record Config := mkConfig {
  max_queue_size : Z;
  max_batch_size : Z;
  max_wait : Z
}.

Section Runner.

Context {Input Output Exn : Type}.

(** What a task's ["output"] can hold: an element of the list
    [service.parse] returned, or the exception [run_model] caught
    ([Exn] stands for the instances of [Exception], the class its
    [except] clause names). *)
Inductive Value :=
| VOut (o : Output)
| VExc (e : Exn).

(** The dict built at lines 56-58, plus ["output"], absent until fan-out.
    [done_event] is the flag of the [asyncio.Event]; [done_sets] is a ghost
    counter of the calls of [done_event.set()]. *)
Record Task := mkTask {
  done_event : bool;
  done_sets : nat;
  input : Input;
  time : Z;
  output : option Value
}.

(** Where the [model_runner] coroutine stands. *)
Inductive Pc :=
| NotStarted
| Waiting
| Executing (to_process : list nat) (batch : list Input)
| Crashed.

(** The fields of [ModelRunner] that change, the task dicts (a store indexed
    by object identity; tasks are shared between the queue, [to_process] and
    the submitting coroutine), the loop's timers and clock, the program
    point of [model_runner], and two ghost logs (newest last): the batches
    sliced off so far, and the calls of [self.service.parse] that
    [run_model] has made, each with the list it was given and what it
    answered. *)
Record State := mkState {
  queue : list nat;
  queue_lock : option bool;
  needs_processing : option bool;
  needs_processing_timer : option nat;
  heap : list Task;
  timers : list TimerHandle;
  now : Z;
  pc : Pc;
  dispatched : list (list nat);
  service_calls : list (list Input * (list Output + Exn))
}.

(** [ModelRunner.__init__] *)
Definition init : State :=
  {| queue := []; queue_lock := None; needs_processing := None;
     needs_processing_timer := None; heap := []; timers := []; now := 0;
     pc := NotStarted; dispatched := []; service_calls := [] |}.

Definition set_queue (q : list nat) (s : State) : State :=
  mkState q (queue_lock s) (needs_processing s) (needs_processing_timer s)
          (heap s) (timers s) (now s) (pc s) (dispatched s) (service_calls s).
Definition set_queue_lock (l : option bool) (s : State) : State :=
  mkState (queue s) l (needs_processing s) (needs_processing_timer s)
          (heap s) (timers s) (now s) (pc s) (dispatched s) (service_calls s).
Definition set_needs_processing (e : option bool) (s : State) : State :=
  mkState (queue s) (queue_lock s) e (needs_processing_timer s)
          (heap s) (timers s) (now s) (pc s) (dispatched s) (service_calls s).
Definition set_needs_processing_timer (t : option nat) (s : State) : State :=
  mkState (queue s) (queue_lock s) (needs_processing s) t
          (heap s) (timers s) (now s) (pc s) (dispatched s) (service_calls s).
Definition set_heap (h : list Task) (s : State) : State :=
  mkState (queue s) (queue_lock s) (needs_processing s) (needs_processing_timer s)
          h (timers s) (now s) (pc s) (dispatched s) (service_calls s).
Definition set_timers (t : list TimerHandle) (s : State) : State :=
  mkState (queue s) (queue_lock s) (needs_processing s) (needs_processing_timer s)
          (heap s) t (now s) (pc s) (dispatched s) (service_calls s).
Definition set_now (t : Z) (s : State) : State :=
  mkState (queue s) (queue_lock s) (needs_processing s) (needs_processing_timer s)
          (heap s) (timers s) t (pc s) (dispatched s) (service_calls s).
Definition set_pc (p : Pc) (s : State) : State :=
  mkState (queue s) (queue_lock s) (needs_processing s) (needs_processing_timer s)
          (heap s) (timers s) (now s) p (dispatched s) (service_calls s).
Definition set_dispatched (d : list (list nat)) (s : State) : State :=
  mkState (queue s) (queue_lock s) (needs_processing s) (needs_processing_timer s)
          (heap s) (timers s) (now s) (pc s) d (service_calls s).
Definition set_service_calls
    (c : list (list Input * (list Output + Exn))) (s : State) : State :=
  mkState (queue s) (queue_lock s) (needs_processing s) (needs_processing_timer s)
          (heap s) (timers s) (now s) (pc s) (dispatched s) c.

(** ** A state-and-exception monad for coroutine segments *)

Definition M (A : Type) : Type := State → result A * State.

Definition ret {A} (a : A) : M A := λ s, (Ok a, s).
Definition bind {A B} (m : M A) (k : A → M B) : M B := λ s,
  match m s with
  | (Ok a, s') => k a s'
  | (Raise e, s') => (Raise e, s')
  | (Suspend, s') => (Suspend, s')
  end.
Definition raise {A} (e : pyexn) : M A := λ s, (Raise e, s).
Definition suspend {A} : M A := λ s, (Suspend, s).
Definition gets {A} (f : State → A) : M A := λ s, (Ok (f s), s).
Definition modify (f : State → State) : M unit := λ s, (Ok tt, f s).

Notation "x <- m ;; k" := (bind m (λ x, k))
  (at level 100, m at next level, right associativity, only parsing).
Notation "m ;; k" := (bind m (λ _, k))
  (at level 100, right associativity, only parsing).

(** *** asyncio primitives *)

(** [loop.time()] *)
Definition loop_time : M Z := gets now.

(** [loop.call_at(when, self.needs_processing.set)]: a new handle enters the
    loop's schedule. *)
Definition loop_call_at (w : Z) : M nat :=
  ts <- gets timers;;
  modify (set_timers (ts ++ [mkTimer w false true]));;
  ret (length ts).

(** [handle.cancel()] *)
Definition cancel_handle (h : TimerHandle) : TimerHandle :=
  mkTimer (when h) true (scheduled h).
Definition timer_cancel (h : nat) : M unit :=
  modify (λ s, set_timers (alter cancel_handle h (timers s)) s).

(** Looking up the bound method [self.needs_processing.set] (or [.clear],
    [.wait]) fails while the field is still [None]. *)
Definition event_attr : M bool :=
  e <- gets needs_processing;;
  match e with
  | Some b => ret b
  | None => raise AttributeError
  end.

(** [self.needs_processing.set()] *)
Definition event_set : M unit :=
  event_attr;; modify (set_needs_processing (Some true)).

(** [self.needs_processing.clear()] *)
Definition event_clear : M unit :=
  event_attr;; modify (set_needs_processing (Some false)).

(** [await self.needs_processing.wait()] *)
Definition event_wait : M unit :=
  b <- event_attr;;
  if b then ret tt else suspend.

(** [async with self.queue_lock: body].  The lock is released when the body
    returns and when it raises. *)
Definition lock_acquire : M unit :=
  l <- gets queue_lock;;
  match l with
  | None => raise AttributeError
  | Some true => suspend
  | Some false => modify (set_queue_lock (Some true))
  end.
Definition lock_release : M unit := modify (set_queue_lock (Some false)).
Definition with_lock {A} (body : M A) : M A := λ s,
  match lock_acquire s with
  | (Ok _, s1) => let '(r, s2) := body s1 in (r, snd (lock_release s2))
  | (Raise e, s1) => (Raise e, s1)
  | (Suspend, s1) => (Suspend, s1)
  end.

(** *** the task store *)

(** A dict literal: a new object, identified by its index. *)
Definition new_task (t : Task) : M nat :=
  h <- gets heap;;
  modify (set_heap (h ++ [t]));;
  ret (length h).

(** [t[...]] for reading *)
Definition task_get (t : nat) : M Task :=
  h <- gets heap;;
  match h !! t with
  | Some o => ret o
  | None => raise DanglingRef
  end.

(** [t["output"] = r] *)
Definition put_output (r : Value) (o : Task) : Task :=
  mkTask (done_event o) (done_sets o) (input o) (time o) (Some r).
Definition task_set_output (t : nat) (r : Value) : M unit :=
  modify (λ s, set_heap (alter (put_output r) t (heap s)) s).

(** [t["done_event"].set()] *)
Definition fire_done (o : Task) : Task :=
  mkTask true (S (done_sets o)) (input o) (time o) (output o).
Definition task_done_set (t : nat) : M unit :=
  modify (λ s, set_heap (alter fire_done t (heap s)) s).

(** [for x in xs: f(x)] collecting the results *)
Fixpoint mapM {A B} (f : A → M B) (xs : list A) : M (list B) :=
  match xs with
  | [] => ret []
  | x :: xs' => y <- f x;; ys <- mapM f xs';; ret (y :: ys)
  end.

(** ** [ModelRunner] *)

Variable cfg : Config.

(** Lines 46-52. *)
Definition schedule_processing_if_needed : M unit :=
  q <- gets queue;;
  if Z.of_nat (length q) >=? max_batch_size cfg then
    event_set
  else
    match q with
    | oldest :: _ =>
        t <- task_get oldest;;
        event_attr;;
        h <- loop_call_at (time t + max_wait cfg);;
        modify (set_needs_processing_timer (Some h))
    | [] => ret tt
    end.

(** Lines 60-64: the body of [async with self.queue_lock] in
    [process_input]. *)
Definition process_input_locked (our_task : nat) : M unit :=
  q <- gets queue;;
  if Z.of_nat (length q) >=? max_queue_size cfg then
    raise (HandlingError "I'm too busy" 503)
  else
    modify (set_queue (q ++ [our_task]));;
    schedule_processing_if_needed.

(** Lines 55-64: [process_input] up to its [await] on the task's own event.
    The value returned is [our_task]. *)
Definition process_input (i : Input) : M nat :=
  t <- loop_time;;
  our_task <- new_task (mkTask false 0 i t None);;
  with_lock (process_input_locked our_task);;
  ret our_task.

(** Lines 66-67: what the caller gets once its event is set; [None] while it
    still waits. *)
Definition process_input_return (our_task : nat) (s : State) : option Value :=
  match heap s !! our_task with
  | Some o => if done_event o then output o else None
  | None => None
  end.

(** Lines 69-74.  [parse] is [self.service.parse] as it behaves in this
    call: it returns a list or raises. *)
Definition run_model (parse : list Input → list Output + Exn)
    (batch : list Input) : list Value :=
  match parse batch with
  | inl outs => VOut <$> outs
  | inr e => (λ _, VExc e) <$> batch
  end.

(** Lines 77-79: [model_runner] before its loop. *)
Definition model_runner_init : M unit :=
  modify (set_queue_lock (Some false));;
  modify (set_needs_processing (Some false)).

(** Lines 90-98: the body of [async with self.queue_lock] in
    [model_runner].  [longest_wait] only feeds the log line and is left
    out. *)
Definition model_runner_locked : M (list nat) :=
  q <- gets queue;;
  let to_process := py_slice_to (max_batch_size cfg) q in
  modify (set_queue (drop (length to_process) q));;
  schedule_processing_if_needed;;
  ret to_process.

(** Lines 83-87: the wake-up, before the lock is asked for. *)
Definition model_runner_wake : M unit :=
  event_wait;;
  event_clear;;
  tm <- gets needs_processing_timer;;
  match tm with
  | Some h => timer_cancel h;; modify (set_needs_processing_timer None)
  | None => ret tt
  end.

(** Lines 83-100: one loop iteration up to the hand-over to the executor. *)
Definition model_runner_dispatch : M (list nat * list Input) :=
  model_runner_wake;;
  to_process <- with_lock model_runner_locked;;
  batch <- mapM (λ t, o <- task_get t;; ret (input o)) to_process;;
  ret (to_process, batch).

(** Lines 104-106: [for t, r in zip(to_process, result)]. *)
Fixpoint fan_out (pairs : list (nat * Value)) : M unit :=
  match pairs with
  | [] => ret tt
  | (t, r) :: rest =>
      task_set_output t r;;
      task_done_set t;;
      fan_out rest
  end.

(** Lines 101-103: [run_model] has run in the executor.  Its first
    statement (line 71) applies [self.service.parse] to [batch], whatever
    the batch holds; the ghost log keeps the argument and the answer. *)
Definition run_in_executor (parse : list Input → list Output + Exn)
    (batch : list Input) : M (list Value) :=
  modify (λ s, set_service_calls
                 (service_calls s ++ [(batch, parse batch)]) s);;
  ret (run_model parse batch).

(** Lines 101-107: the executor's answer arrives and is handed out. *)
Definition model_runner_deliver (parse : list Input → list Output + Exn)
    (to_process : list nat) (batch : list Input) : M unit :=
  result <- run_in_executor parse batch;;
  fan_out (zip to_process result).

(** Lines 90-93: [longest_wait], which [model_runner] computes under the
    lock for its log line. *)
Definition model_runner_longest_wait : M (option Z) :=
  q <- gets queue;;
  match q with
  | oldest :: _ =>
      t <- loop_time;;
      o <- task_get oldest;;
      ret (Some (t - time o))
  | [] => ret None
  end.

(** ** The machine *)

(** What can happen next:
    - [EStart]: the startup hook's task runs [model_runner] up to its first
      [await] (lines 77-83);
    - [ESubmit i]: a route calls [process_input(i)], which runs up to line
      66 or raises;
    - [ETick d]: the clock advances by [d];
    - [EFire h]: the loop runs the callback of timer [h];
    - [EWake]: [model_runner], waiting at line 83 with the event set, runs
      up to line 101;
    - [EFinish parse]: the executor finishes [run_model], [service.parse]
      having behaved as [parse]; [model_runner] runs lines 104-107 and
      is back at line 83. *)
Inductive event :=
| EStart
| ESubmit (i : Input)
| ETick (d : Z)
| EFire (h : nat)
| EWake
| EFinish (parse : list Input → list Output + Exn).

(** The loop runs handle [h]: it is due, still scheduled, not cancelled.
    asyncio's loop takes a handle as due once
    [when < time() + clock_resolution], so up to one clock resolution
    before [when]; the guard here is [when ≤ now].  A handle that can run
    here can run in the real loop; nothing below is concluded from a
    handle being too early to run. *)
Definition fire_handle (t : TimerHandle) : TimerHandle :=
  mkTimer (when t) (cancelled t) false.
Definition loop_fire (h : nat) (s : State) : option State :=
  match timers s !! h with
  | Some t =>
      if outstanding t && (when t <=? now s) then
        match event_set (set_timers (alter fire_handle h (timers s)) s) with
        | (Ok _, s') => Some s'
        | _ => None
        end
      else None
  | None => None
  end.

(** A coroutine segment that raises inside [model_runner] ends the
    coroutine; one that would suspend in the middle is outside the machine
    (it does not happen, see [reachable_inv]). *)
Definition step (e : event) (s : State) : option State :=
  match e with
  | EStart =>
      match pc s with
      | NotStarted =>
          match model_runner_init s with
          | (Ok _, s') => Some (set_pc Waiting s')
          | (Raise _, s') => Some (set_pc Crashed s')
          | (Suspend, _) => None
          end
      | _ => None
      end
  | ESubmit i =>
      match process_input i s with
      | (Ok _, s') => Some s'
      | (Raise _, s') => Some s'
      | (Suspend, _) => None
      end
  | ETick d => if 0 <=? d then Some (set_now (now s + d) s) else None
  | EFire h => loop_fire h s
  | EWake =>
      match pc s with
      | Waiting =>
          match model_runner_dispatch s with
          | (Ok (tp, batch), s') =>
              Some (set_dispatched (dispatched s' ++ [tp])
                      (set_pc (Executing tp batch) s'))
          | (Raise _, s') => Some (set_pc Crashed s')
          | (Suspend, _) => None
          end
      | _ => None
      end
  | EFinish parse =>
      match pc s with
      | Executing tp batch =>
          match model_runner_deliver parse tp batch s with
          | (Ok _, s') => Some (set_pc Waiting s')
          | (Raise _, s') => Some (set_pc Crashed s')
          | (Suspend, _) => None
          end
      | _ => None
      end
  end.

Fixpoint exec (es : list event) (s : State) : option State :=
  match es with
  | [] => Some s
  | e :: es' =>
      match step e s with
      | Some s' => exec es' s'
      | None => None
      end
  end.

Definition reachable (s : State) : Prop := ∃ es, exec es init = Some s.

(** ** Vocabulary of the proofs *)

(** A task nobody has answered yet, and a task answered once. *)
Definition pending (o : Task) : Prop :=
  done_event o = false ∧ done_sets o = 0%nat ∧ output o = None.
Definition completed (o : Task) : Prop :=
  done_event o = true ∧ done_sets o = 1%nat ∧ is_Some (output o).

(** The local [to_process] of [model_runner] while the worker runs. *)
Definition in_flight (s : State) : list nat :=
  match pc s with
  | Executing tp _ => tp
  | _ => []
  end.

(** [t] holds [i] as its ["input"]. *)
Definition has_input (h : list Task) (t : nat) (i : Input) : Prop :=
  ∃ o, h !! t = Some o ∧ input o = i.

(** The state [schedule_processing_if_needed] leaves, written as a function
    of the state it starts from. *)
Definition arm_timer (w : Z) (s : State) : State :=
  set_needs_processing_timer (Some (length (timers s)))
    (set_timers (timers s ++ [mkTimer w false true]) s).
Definition scheduled_state (s : State) : State :=
  if Z.of_nat (length (queue s)) >=? max_batch_size cfg then
    set_needs_processing (Some true) s
  else
    match queue s with
    | oldest :: _ =>
        match heap s !! oldest with
        | Some o => arm_timer (time o + max_wait cfg) s
        | None => s
        end
    | [] => s
    end.

(** The state [process_input] leaves: the task dict exists in any case;
    when the request is admitted the task is queued and the scheduler has
    decided, all with the lock held. *)
Definition with_task (i : Input) (s : State) : State :=
  set_heap (heap s ++ [mkTask false 0 i (now s) None]) s.
Definition admitted_state (i : Input) (s : State) : State :=
  set_queue_lock (Some false)
    (scheduled_state
       (set_queue (queue s ++ [length (heap s)])
          (set_queue_lock (Some true) (with_task i s)))).

(** The state [model_runner] leaves when it hands a batch to the executor:
    event cleared and current handle cancelled (lines 84-87), queue sliced
    under the lock (lines 96-97), scheduler run on what is left (line 98). *)
Definition cleared_state (s : State) : State :=
  match needs_processing_timer s with
  | Some h =>
      set_needs_processing_timer None
        (set_timers (alter cancel_handle h (timers s))
           (set_needs_processing (Some false) s))
  | None => set_needs_processing (Some false) s
  end.
Definition sliced_state (s : State) : State :=
  let c := set_queue_lock (Some true) (cleared_state s) in
  set_queue (drop (length (py_slice_to (max_batch_size cfg) (queue s))) (queue s)) c.
Definition handed_over_state (s : State) : State :=
  set_queue_lock (Some false) (scheduled_state (sliced_state s)).

(** [[t["input"] for t in to_process]] *)
Definition inputs_of (h : list Task) (tp : list nat) : list Input :=
  omap (λ t, input <$> h !! t) tp.

(** The store [fan_out] leaves. *)
Definition complete_task (r : Value) (o : Task) : Task :=
  fire_done (put_output r o).
Fixpoint delivered (pairs : list (nat * Value)) (h : list Task) : list Task :=
  match pairs with
  | [] => h
  | (t, r) :: rest => delivered rest (alter (complete_task r) t h)
  end.

(** The state [model_runner] is in when it is back at line 83 after a
    delivery. *)
Definition delivered_state (parse : list Input → list Output + Exn)
    (tp : list nat) (batch : list Input) (s : State) : State :=
  set_pc Waiting
    (set_heap (delivered (zip tp (run_model parse batch)) (heap s))
       (set_service_calls (service_calls s ++ [(batch, parse batch)]) s)).

(** What holds in every state the machine reaches. *)
Record Inv (s : State) : Prop := mkInv {
  inv_pc : pc s ≠ Crashed;
  inv_started :
    match pc s with
    | NotStarted =>
        queue_lock s = None ∧ needs_processing s = None ∧
        queue s = [] ∧ dispatched s = []
    | _ => queue_lock s = Some false ∧ is_Some (needs_processing s)
    end;
  inv_nodup : NoDup (concat (dispatched s) ++ queue s);
  inv_valid :
    Forall (λ t, (t < length (heap s))%nat) (concat (dispatched s) ++ queue s);
  inv_heap : Forall (λ o, pending o ∨ completed o) (heap s);
  inv_pending :
    ∀ t o, t ∈ queue s ++ in_flight s → heap s !! t = Some o → pending o;
  inv_exec :
    ∀ tp batch, pc s = Executing tp batch →
      (∃ pre, dispatched s = pre ++ [tp]) ∧ Forall2 (has_input (heap s)) tp batch
}.

(** Two states the invariant cannot tell apart. *)
Definition same_core (s s' : State) : Prop :=
  pc s' = pc s ∧ queue_lock s' = queue_lock s ∧ queue s' = queue s ∧
  dispatched s' = dispatched s ∧ heap s' = heap s ∧
  (needs_processing s = None → needs_processing s' = None) ∧
  (is_Some (needs_processing s) → is_Some (needs_processing s')).

(** Events that only let requests arrive and time pass. *)
Definition arrival (e : event) : bool :=
  match e with
  | ESubmit _ => true
  | ETick d => 0 <=? d
  | _ => false
  end.
Definition submitted (es : list event) : list Input :=
  flat_map (λ e, match e with ESubmit i => [i] | _ => [] end) es.

(** Every task that was admitted, oldest first: the batches sliced off so
    far, then the queue. *)
Definition admitted_tasks (s : State) : list nat :=
  concat (dispatched s) ++ queue s.

(** A list of task references in strictly increasing order of creation. *)
Definition increasing (l : list nat) : Prop :=
  ∀ i j x y, (i < j)%nat → l !! i = Some x → l !! j = Some y → (x < y)%nat.

(** Tasks created later carry later timestamps, none ahead of the clock. *)
Definition timestamps_ordered (s : State) : Prop :=
  ∀ a b oa ob, (a ≤ b)%nat → heap s !! a = Some oa → heap s !! b = Some ob →
    time oa ≤ time ob ∧ time ob ≤ now s.

(** Something will wake the dispatcher for the task [o] at the head of the
    queue: the event is set, or the stored handle is that of an armed timer
    due at [o["time"] + max_wait]. *)
Definition wakeup_pending (s : State) (o : Task) : Prop :=
  needs_processing s = Some true ∨
  ∃ h, needs_processing_timer s = Some h ∧
       timers s !! h = Some (mkTimer (time o + max_wait cfg) false true).

End Runner.

Arguments Value : clear implicits.
Arguments Task : clear implicits.
Arguments Pc : clear implicits.
Arguments State : clear implicits.
Arguments event : clear implicits.

(** ** The routes *)

Section Routes.

Context {Input Output Exn Dict : Type}.

(** [isinstance(output, Document)] and [output.to_dict()].  [Document] comes
    from [elit.common.document]; an exception object is not one. *)
Variable isinstance_Document : Output → bool.
Variable to_dict : Output → Dict.

(** [Input(text=text)], from [elit.server.format]. *)
Variable Input_of_text : string → Input.

Variable cfg : Config.

(** Lines 122-124 and 131-133: what a route does with the value
    [process_input] returned. *)
Definition respond (output : Value Output Exn) : result Dict :=
  match output with
  | VOut o =>
      if isinstance_Document o then Ok (to_dict o)
      else Raise (HandlingError "Internal Server Error" 500)
  | VExc _ => Raise (HandlingError "Internal Server Error" 500)
  end.

(** Line 121: [POST /parse] up to the [await] inside [process_input]; an
    exception of [process_input] is not caught. *)
Definition parse_post (input : Input) : @M Input Output Exn nat :=
  process_input cfg input.

(** Lines 129-130: [GET /parse]. *)
Definition parse_get (text : string) : @M Input Output Exn nat :=
  process_input cfg (Input_of_text text).

(** The rest of either route, once [process_input] has returned; [None]
    while the caller still waits. *)
Definition parse_answer (our_task : nat) (s : State Input Output Exn) :
    option (result Dict) :=
  respond <$> process_input_return our_task s.

End Routes.

(** ** Starting the server and the command line: [run], [main] of
    [server.py], and [elit/main.py] *)

Module Cli.

(** Values passed as arguments. *)
Inductive pyarg :=
| AStr (s : string)
| AInt (z : Z)
| ABool (b : bool).

(** What a call can come to: [uvicorn.run] is entered with these arguments,
    or Python refuses the call ([TypeError: run() got an unexpected keyword
    argument ...]). *)
Inductive outcome :=
| UvicornRun (app : string) (host port reload : pyarg)
| TypeError (unexpected : string).

(** The parameters of [def run(host='0.0.0.0', port=8000, reload=False)]
    with their defaults (line 136 of [server.py]). *)
Definition run_parameters : list (string * pyarg) :=
  [("host"%string, AStr "0.0.0.0"); ("port"%string, AInt 8000);
   ("reload"%string, ABool false)].

(** Binding a call that passes keyword arguments only: each keyword must
    name a parameter and replaces its default; the first one that does not
    is reported. *)
Definition set_parameter (k : string) (v : pyarg)
    (ps : list (string * pyarg)) : option (list (string * pyarg)) :=
  if existsb (λ p, String.eqb (fst p) k) ps
  then Some (map (λ p, if String.eqb (fst p) k then (k, v) else p) ps)
  else None.
Fixpoint bind_keywords (ps : list (string * pyarg))
    (kwargs : list (string * pyarg)) : string + list (string * pyarg) :=
  match kwargs with
  | [] => inr ps
  | (k, v) :: rest =>
      match set_parameter k v ps with
      | Some ps' => bind_keywords ps' rest
      | None => inl k
      end
  end.

Definition argument (k : string) (ps : list (string * pyarg)) : pyarg :=
  match find (λ p, String.eqb (fst p) k) ps with
  | Some p => snd p
  | None => AStr ""%string
  end.

(** Lines 136-137 of [server.py], called with keyword arguments. *)
Definition run (kwargs : list (string * pyarg)) : outcome :=
  match bind_keywords run_parameters kwargs with
  | inl k => TypeError k
  | inr ps =>
      UvicornRun "elit.server.server:app"
        (argument "host" ps) (argument "port" ps) (argument "reload" ps)
  end.

(** Lines 140-141 of [server.py]: [run(reload=True)]. *)
Definition server_main : outcome := run [("reload"%string, ABool true)].

(** Lines 32-34 of [main.py]: the [serve] task, with the values argparse
    read for [--port] and [--workers] (both [type=int]). *)
Definition main_serve (port workers : Z) : outcome :=
  run [("port"%string, AInt port); ("workers"%string, AInt workers)].

Section Interactive.

Context {Input Output Exn : Type}.

(** [str.strip], [Input(text=line)] and [service_parser.parse]. *)
Variable strip : string → string.
Variable Input_of_text : string → Input.
Variable parse : list Input → list Output + Exn.

(** How the [parse] task ends: stdin is exhausted, the service raised, or
    it returned an empty list and [[0]] raised [IndexError]. *)
Inductive ending :=
| Exhausted
| ServiceRaised (e : Exn)
| IndexError.

(** Lines 26-31 of [main.py]: the documents printed, in order, and how the
    loop ended. *)
Fixpoint main_parse (stdin : list string) : list Output * ending :=
  match stdin with
  | [] => ([], Exhausted)
  | line :: rest =>
      match parse [Input_of_text (strip line)] with
      | inl (doc :: _) =>
          let '(printed, e) := main_parse rest in (doc :: printed, e)
      | inl [] => ([], IndexError)
      | inr e => ([], ServiceRaised e)
      end
  end.

End Interactive.

End Cli.

(** ** Concrete runners used to exercise the statements *)

Module Demo.

(** Inputs, outputs and exceptions are numbers; the service echoes its
    batch, answers with one output too few, or raises. *)
Definition echo (batch : list nat) : list nat + nat := inl batch.
Definition drop_last (batch : list nat) : list nat + nat :=
  inl (take (length batch - 1) batch).
Definition failing (batch : list nat) : list nat + nat := inr 7%nat.

(** The defaults of [ModelRunner.__init__], with [max_wait] in
    milliseconds. *)
Definition defaults : Config := mkConfig 128 32 50.
Definition small : Config := mkConfig 2 2 50.
Definition three : Config := mkConfig 128 3 50.

Definition pair : Config := mkConfig 128 2 50.

Definition ev : Type := event nat nat nat.
Definition st : Type := State nat nat nat.

(** The state a run from [__init__] ends in. *)
Definition run_from (c : Config) (es : list ev) : st :=
  default init (exec c es init).

(** Two requests one tick apart. *)
Definition two_arrivals : list ev :=
  [EStart; ESubmit 10%nat; ETick 1; ESubmit 11%nat].

(** Three requests fill a batch of three, which is dispatched and
    answered; then the clock reaches the first deadline. *)
Definition arrivals : list ev :=
  [ESubmit 10%nat; ETick 1; ESubmit 11%nat; ETick 1; ESubmit 12%nat].
Definition full_batch : list ev := EStart :: arrivals.
Definition executing : list ev := full_batch ++ [EWake].
Definition drained : list ev :=
  full_batch ++ [EWake; EFinish echo; ETick 48].

(** With batches of two, the same three requests leave in two batches, the
    second one on its deadline. *)
Definition two_batches : list ev :=
  full_batch ++ [EWake; EFinish echo; ETick 50; EFire 1%nat; EWake].

(** Two requests at the same instant. *)
Definition two_queued : list ev := [EStart; ESubmit 10%nat; ESubmit 11%nat].

(** A batch size of zero. *)
Definition zero : Config := mkConfig 128 0 50.

(** One request that has waited [max_wait]. *)
Definition overdue : list ev := [EStart; ESubmit 10%nat; ETick 50].

(** What follows [full_batch] in [two_batches]. *)
Definition second_batch : list ev :=
  [EWake; EFinish echo; ETick 50; EFire 1%nat; EWake].

(** Even numbers stand for documents, which [to_dict] doubles. *)
Definition isinstance_Document (o : nat) : bool := Nat.even o.
Definition to_dict (o : nat) : nat := (2 * o)%nat.

End Demo.

(** * Properties *)

Section Properties.

Context {Input Output Exn : Type}.
Variable cfg : Config.

Local Abbreviation State := (State Input Output Exn).
Local Abbreviation Task := (Task Input Output Exn).
Local Abbreviation event := (event Input Output Exn).

Implicit Types (s : State) (o : Task) (q tp : list nat) (t : nat).

(** *** Slicing *)

Lemma py_slice_to_split {A} (k : Z) (l : list A) :
  py_slice_to k l ++ drop (length (py_slice_to k l)) l = l.
Proof.
  unfold py_slice_to.
  destruct (k <? 0); rewrite length_take;
    match goal with
    | |- take ?n _ ++ _ = _ =>
        destruct (decide (n ≤ length l)%nat) as [Hle|Hgt];
        [ rewrite Nat.min_l by done; apply take_drop
        | rewrite Nat.min_r by lia; rewrite take_ge, drop_all by lia;
          apply app_nil_r ]
    end.
Qed.

Lemma py_slice_to_nonneg {A} (k : Z) (l : list A) :
  0 ≤ k → py_slice_to k l = take (Z.to_nat k `min` length l) l.
Proof.
  intros Hk. unfold py_slice_to.
  destruct (Z.ltb_spec k 0); [lia|].
  destruct (decide (Z.to_nat k ≤ length l)%nat).
  - by rewrite Nat.min_l.
  - rewrite Nat.min_r by lia. by rewrite !take_ge by lia.
Qed.

Example py_slice_to_positive : py_slice_to 2 [5; 6; 7] = [5; 6].
Proof. reflexivity. Qed.

Example py_slice_to_negative : py_slice_to (-1) [5; 6; 7] = [5; 6].
Proof. reflexivity. Qed.

(** *** States *)

Lemma state_eq s s' :
  queue s = queue s' → queue_lock s = queue_lock s' →
  needs_processing s = needs_processing s' →
  needs_processing_timer s = needs_processing_timer s' →
  heap s = heap s' → timers s = timers s' → now s = now s' →
  pc s = pc s' → dispatched s = dispatched s' →
  service_calls s = service_calls s' → s = s'.
Proof. destruct s, s'; simpl; congruence. Qed.

Lemma Inv_same_core s s' : same_core s s' → Inv s → Inv s'.
Proof.
  intros (Hpc & Hl & Hq & Hd & Hh & Hn & Hs) [I1 I2 I3 I4 I5 I6 I7].
  split; unfold in_flight in *; rewrite ?Hpc, ?Hl, ?Hq, ?Hd, ?Hh; try done.
  destruct (pc s); destruct I2 as [? I2]; try by eauto.
  destruct I2 as [? ?]. by eauto.
Qed.

(** *** Segments as state functions *)

Ltac run :=
  unfold bind, ret, gets, modify, raise, suspend; simpl.

Lemma schedule_spec s :
  is_Some (needs_processing s) →
  (∀ t, head (queue s) = Some t → is_Some (heap s !! t)) →
  schedule_processing_if_needed cfg s = (Ok tt, scheduled_state cfg s).
Proof.
  intros [b Hb] Hv.
  unfold schedule_processing_if_needed, scheduled_state, event_set, event_attr,
    task_get, loop_call_at, arm_timer.
  run.
  destruct (_ >=? _); [by rewrite Hb|].
  destruct (queue s) as [|t q]; [done|].
  destruct (Hv t eq_refl) as [o Ho]. rewrite Ho. simpl. by rewrite Hb.
Qed.

Lemma scheduled_same_core s :
  is_Some (needs_processing s) → same_core s (scheduled_state cfg s).
Proof.
  intros [b Hb]. unfold scheduled_state, same_core, arm_timer.
  destruct (_ >=? _); simpl.
  - rewrite Hb. repeat split; try done.
  - destruct (queue s) as [|t q] eqn:Hq; [|destruct (heap s !! t)];
      simpl; rewrite Hb; naive_solver.
Qed.

(** With a queue that is neither empty nor a full batch, the scheduler arms
    a timer for [oldest["time"] + max_wait] and stores its handle; the
    timers armed earlier stay as they are, whatever handle was stored. *)
Lemma scheduled_partial_batch s oldest q o :
  queue s = oldest :: q → heap s !! oldest = Some o →
  Z.of_nat (length (queue s)) < max_batch_size cfg →
  timers (scheduled_state cfg s) =
    timers s ++ [mkTimer (time o + max_wait cfg) false true] ∧
  needs_processing_timer (scheduled_state cfg s) = Some (length (timers s)) ∧
  needs_processing (scheduled_state cfg s) = needs_processing s.
Proof.
  intros Hq Ho Hlt. unfold scheduled_state.
  destruct (Z.geb_spec (Z.of_nat (length (queue s))) (max_batch_size cfg));
    [lia|].
  by rewrite Hq, Ho.
Qed.

Lemma process_input_unstarted s i :
  queue_lock s = None →
  process_input cfg i s = (Raise AttributeError, with_task i s).
Proof.
  intros Hl. unfold process_input, loop_time, new_task, with_lock, lock_acquire.
  run. by rewrite Hl.
Qed.

Lemma process_input_reject s i :
  queue_lock s = Some false →
  max_queue_size cfg ≤ Z.of_nat (length (queue s)) →
  process_input cfg i s =
    (Raise (HandlingError "I'm too busy" 503), with_task i s).
Proof.
  intros Hl Hfull.
  unfold process_input, loop_time, new_task, with_lock, lock_acquire,
    lock_release, process_input_locked.
  run. rewrite Hl. simpl.
  destruct (Z.geb_spec (Z.of_nat (length (queue s))) (max_queue_size cfg)); [|lia].
  simpl. f_equal. apply state_eq; simpl; congruence.
Qed.

Lemma process_input_accept s i :
  queue_lock s = Some false →
  is_Some (needs_processing s) →
  Forall (λ t, (t < length (heap s))%nat) (queue s) →
  Z.of_nat (length (queue s)) < max_queue_size cfg →
  process_input cfg i s = (Ok (length (heap s)), admitted_state cfg i s).
Proof.
  intros Hl Hn Hv Hroom.
  unfold process_input, loop_time, new_task, with_lock, lock_acquire,
    lock_release, process_input_locked.
  run. rewrite Hl. simpl.
  destruct (Z.geb_spec (Z.of_nat (length (queue s))) (max_queue_size cfg)); [lia|].
  simpl. rewrite schedule_spec; [done|done|].
  simpl. intros t Ht.
  destruct (queue s) as [|t0 q]; simpl in Ht; simplify_eq.
  - rewrite lookup_app_r, Nat.sub_diag by done. by eexists.
  - apply Forall_cons in Hv as [Hv _].
    rewrite lookup_app_l by done. by apply lookup_lt_is_Some_2.
Qed.

Lemma mapM_inputs s tp :
  Forall (λ t, (t < length (heap s))%nat) tp →
  mapM (λ t, bind (task_get t) (λ o, ret (input o))) tp s =
    (Ok (inputs_of (heap s) tp), s).
Proof.
  induction 1 as [|t tp Ht _ IH]; [done|].
  apply lookup_lt_is_Some_2 in Ht as [o Ho].
  simpl. unfold task_get in *. run. rewrite Ho. simpl.
  unfold bind, ret, gets, raise in IH. rewrite IH. unfold inputs_of. simpl.
  by rewrite ?Ho.
Qed.

Lemma inputs_of_has_input (h : list Task) tp :
  Forall (λ t, (t < length h)%nat) tp →
  Forall2 (has_input h) tp (inputs_of h tp).
Proof.
  induction 1 as [|t tp Ht _ IH]; [constructor|].
  apply lookup_lt_is_Some_2 in Ht as [o Ho].
  unfold inputs_of. simpl. rewrite Ho. simpl.
  constructor; [by exists o|done].
Qed.

Lemma inputs_of_app (h : list Task) (x : Task) tp :
  Forall (λ t, (t < length h)%nat) tp →
  inputs_of (h ++ [x]) tp = inputs_of h tp.
Proof.
  induction 1 as [|t tp Ht _ IH]; [done|].
  unfold inputs_of in *. simpl. rewrite lookup_app_l by done.
  destruct (input <$> h !! t); [f_equal|]; exact IH.
Qed.

Lemma cleared_same_core s :
  is_Some (needs_processing s) → same_core s (cleared_state s).
Proof.
  intros [b Hb]. unfold cleared_state, same_core.
  destruct (needs_processing_timer s); simpl; rewrite Hb; naive_solver.
Qed.

Lemma model_runner_wake_spec s :
  needs_processing s = Some true →
  model_runner_wake s = (Ok (), cleared_state s).
Proof.
  intros Hn. unfold model_runner_wake, event_wait, event_clear, event_attr.
  run. rewrite Hn. simpl. rewrite Hn. simpl. unfold cleared_state.
  destruct (needs_processing_timer s); unfold timer_cancel; by run.
Qed.

Lemma lock_acquire_free s :
  queue_lock s = Some false →
  lock_acquire s = (Ok (), set_queue_lock (Some true) s).
Proof. intros Hl. unfold lock_acquire. run. by rewrite Hl. Qed.

Lemma cleared_lock s :
  is_Some (needs_processing s) → queue_lock (cleared_state s) = queue_lock s.
Proof.
  intros Hn. by destruct (cleared_same_core s Hn) as (_ & ? & _).
Qed.

(** The critical section of [model_runner], run on the state the lock is
    acquired in. *)
Lemma model_runner_locked_spec s :
  needs_processing s = Some true →
  Forall (λ t, (t < length (heap s))%nat) (queue s) →
  model_runner_locked cfg (set_queue_lock (Some true) (cleared_state s)) =
    (Ok (py_slice_to (max_batch_size cfg) (queue s)),
     scheduled_state cfg (sliced_state cfg s)).
Proof.
  intros Hn Hv.
  assert (Hsplit := py_slice_to_split (max_batch_size cfg) (queue s)).
  assert (Hv' := Hv). rewrite <- Hsplit in Hv'.
  apply Forall_app in Hv' as [Htp Hrest].
  destruct (cleared_same_core s) as (Hpc & Hcl & Hcq & Hcd & Hch & _ & Hcn);
    [by eauto|].
  specialize (Hcn ltac:(by eauto)).
  unfold model_runner_locked. run. rewrite Hcq.
  fold (sliced_state cfg s).
  rewrite schedule_spec; [done| |].
  - done.
  - unfold sliced_state. simpl. intros t Ht. rewrite Hch.
    apply lookup_lt_is_Some_2.
    destruct (drop _ _) eqn:Hd; simplify_eq/=.
    by apply Forall_cons in Hrest as [? _].
Qed.

Lemma with_lock_model_runner_spec s :
  needs_processing s = Some true →
  queue_lock s = Some false →
  Forall (λ t, (t < length (heap s))%nat) (queue s) →
  with_lock (model_runner_locked cfg) (cleared_state s) =
    (Ok (py_slice_to (max_batch_size cfg) (queue s)),
     handed_over_state cfg s).
Proof.
  intros Hn Hl Hv. unfold with_lock.
  rewrite lock_acquire_free by (rewrite cleared_lock; by eauto).
  by rewrite model_runner_locked_spec.
Qed.

Lemma model_runner_dispatch_spec s :
  needs_processing s = Some true →
  queue_lock s = Some false →
  Forall (λ t, (t < length (heap s))%nat) (queue s) →
  model_runner_dispatch cfg s =
    (Ok (py_slice_to (max_batch_size cfg) (queue s),
         inputs_of (heap s) (py_slice_to (max_batch_size cfg) (queue s))),
     handed_over_state cfg s).
Proof.
  intros Hn Hl Hv.
  assert (Hsplit := py_slice_to_split (max_batch_size cfg) (queue s)).
  assert (Hv' := Hv). rewrite <- Hsplit in Hv'.
  apply Forall_app in Hv' as [Htp Hrest].
  assert (heap (handed_over_state cfg s) = heap s) as Hh.
  { destruct (cleared_same_core s) as (_ & _ & _ & _ & Hch & _ & Hcn);
      [by eauto|].
    specialize (Hcn ltac:(by eauto)).
    unfold handed_over_state. cbn [heap set_queue_lock].
    destruct (scheduled_same_core (sliced_state cfg s)) as
      (_ & _ & _ & _ & -> & _); [done|].
    unfold sliced_state. simpl. by rewrite Hch. }
  unfold model_runner_dispatch, bind.
  rewrite model_runner_wake_spec by done.
  rewrite with_lock_model_runner_spec by done.
  rewrite mapM_inputs by (by rewrite Hh).
  by rewrite Hh.
Qed.

(** *** Fan-out *)

Lemma fst_zip_take {A B} (l : list A) (k : list B) :
  (zip l k).*1 = take (length k) l.
Proof.
  revert k. induction l as [|x l IH]; intros [|y k]; simpl; try done.
  by rewrite IH.
Qed.

Lemma elem_of_zip_lookup {A B} (l : list A) (k : list B) x y :
  (x, y) ∈ zip l k ↔ ∃ i, l !! i = Some x ∧ k !! i = Some y.
Proof.
  rewrite list_elem_of_lookup. split.
  - intros [i Hi]. exists i.
    apply lookup_zip_with_Some in Hi as (x' & y' & ? & ? & ?). by simplify_eq.
  - intros (i & Hx & Hy). exists i. apply lookup_zip_with_Some. eauto.
Qed.

Lemma fan_out_spec pairs s :
  fan_out pairs s = (Ok (), set_heap (delivered pairs (heap s)) s).
Proof.
  revert s. induction pairs as [|[t r] rest IH]; intros s; simpl.
  - f_equal. by destruct s.
  - unfold task_set_output, task_done_set. run. rewrite IH. simpl.
    unfold complete_task. by rewrite list_alter_alter_eq.
Qed.

Lemma length_delivered pairs (h : list Task) :
  length (delivered pairs h) = length h.
Proof.
  revert h. induction pairs as [|[t r] rest IH]; intros h; simpl; [done|].
  by rewrite IH, length_alter.
Qed.

Lemma delivered_notin pairs (h : list Task) t :
  t ∉ pairs.*1 → delivered pairs h !! t = h !! t.
Proof.
  revert h. induction pairs as [|[t' r] rest IH]; intros h Hnot; simpl; [done|].
  simpl in Hnot. apply not_elem_of_cons in Hnot as [Hne Hrest].
  rewrite IH by done. by apply list_lookup_alter_ne.
Qed.

Lemma delivered_in pairs (h : list Task) t r o :
  NoDup pairs.*1 → (t, r) ∈ pairs → h !! t = Some o →
  delivered pairs h !! t = Some (complete_task r o).
Proof.
  revert h. induction pairs as [|[t' r'] rest IH]; intros h Hnd Hin Ho; simpl.
  - by apply elem_of_nil in Hin.
  - simpl in Hnd. apply NoDup_cons in Hnd as [Hfresh Hnd].
    apply elem_of_cons in Hin as [Heq|Hin].
    + simplify_eq. rewrite delivered_notin by done.
      by rewrite list_lookup_alter_eq, Ho.
    + assert (t ≠ t') as Hne.
      { intros ->. apply Hfresh. by apply (list_elem_of_fmap_2 fst _ (t', r)). }
      apply IH; [done|done|]. by rewrite list_lookup_alter_ne.
Qed.

Lemma complete_pending r o : pending o → completed (complete_task r o).
Proof. intros (? & Hs & ?). repeat split; simpl; [by rewrite Hs|by eauto]. Qed.

(** *** The invariant *)

Lemma Inv_init : Inv (@init Input Output Exn).
Proof.
  split; simpl; try done. constructor.
Qed.

Lemma Inv_started s :
  Inv s → pc s ≠ NotStarted →
  queue_lock s = Some false ∧ is_Some (needs_processing s).
Proof. intros I Hpc. pose proof (inv_started s I). by destruct (pc s). Qed.

Lemma in_flight_dispatched s t :
  Inv s → t ∈ in_flight s → t ∈ concat (dispatched s).
Proof.
  intros I Ht. unfold in_flight in Ht.
  destruct (pc s) eqn:Hpc; try by apply elem_of_nil in Ht.
  destruct (inv_exec s I _ _ Hpc) as [[pre Hd] _].
  rewrite Hd, concat_app. simpl. rewrite app_nil_r.
  apply elem_of_app. by right.
Qed.

Lemma Inv_ref_valid s t :
  Inv s → t ∈ queue s ++ in_flight s → (t < length (heap s))%nat.
Proof.
  intros I Ht. pose proof (inv_valid s I) as Hv.
  rewrite Forall_forall in Hv. apply Hv.
  apply elem_of_app in Ht as [Ht|Ht]; apply elem_of_app; [by right|left].
  by apply in_flight_dispatched.
Qed.

Lemma Inv_with_task i s : Inv s → Inv (with_task i s).
Proof.
  intros I. pose proof (Inv_ref_valid s) as Hval.
  destruct I as [I1 I2 I3 I4 I5 I6 I7].
  split; simpl; try done.
  - rewrite length_app. simpl. eapply Forall_impl; [exact I4|]. simpl. lia.
  - apply Forall_app. split; [done|]. repeat constructor.
  - intros t o Ht Ho.
    assert (t < length (heap s))%nat as Hlt by (apply Hval; [by split|done]).
    rewrite lookup_app_l in Ho by done. eauto.
  - intros tp batch Hpc. destruct (I7 _ _ Hpc) as [Hd HF]. split; [done|].
    eapply Forall2_impl; [exact HF|].
    intros t' i' (o & Ho & Hi). exists o. split; [by apply lookup_app_l_Some|done].
Qed.

Lemma Inv_enqueue s n :
  Inv s → pc s ≠ NotStarted → (n < length (heap s))%nat →
  n ∉ concat (dispatched s) ++ queue s →
  (∀ o, heap s !! n = Some o → pending o) →
  Inv (set_queue (queue s ++ [n]) s).
Proof.
  intros [I1 I2 I3 I4 I5 I6 I7] Hpc Hn Hfresh Hp. split; simpl; try done.
  - by destruct (pc s).
  - rewrite app_assoc. apply NoDup_app. split; [done|].
    split; [|apply NoDup_singleton].
    intros x Hx Hx'. by apply list_elem_of_singleton in Hx' as ->.
  - rewrite app_assoc. apply Forall_app. split; [done|]. by repeat constructor.
  - intros t o Ht Ho. unfold in_flight in *. simpl in *.
    rewrite <- app_assoc in Ht. apply elem_of_app in Ht as [Ht|Ht].
    + apply (I6 t o); [|done]. apply elem_of_app. by left.
    + apply elem_of_cons in Ht as [->|Ht]; [by apply Hp|].
      apply (I6 t o); [|done]. apply elem_of_app. by right.
Qed.

Lemma Inv_admitted i s :
  Inv s → pc s ≠ NotStarted → Inv (admitted_state cfg i s).
Proof.
  intros I Hpc. destruct (Inv_started s I Hpc) as [Hl Hn].
  assert (Inv (set_queue (queue s ++ [length (heap s)]) (with_task i s))) as I'.
  { apply (Inv_enqueue (with_task i s)); simpl.
    - by apply Inv_with_task.
    - done.
    - rewrite length_app. simpl. lia.
    - intros Hin. pose proof (inv_valid s I) as Hv.
      rewrite Forall_forall in Hv. apply Hv in Hin. lia.
    - intros o. rewrite lookup_app_r, Nat.sub_diag by done.
      intros [= <-]. by repeat split. }
  eapply Inv_same_core; [|exact I'].
  unfold admitted_state.
  match goal with |- same_core _ (set_queue_lock _ (scheduled_state _ ?X)) =>
    destruct (scheduled_same_core X) as (E1 & E2 & E3 & E4 & E5 & E6 & E7);
      [done|]
  end.
  unfold same_core. simpl in *. rewrite E1, E3, E4, E5.
  repeat split; try done.
Qed.

Lemma scheduled_now s : now (scheduled_state cfg s) = now s.
Proof. unfold scheduled_state, arm_timer. by repeat case_match. Qed.

Lemma scheduled_service_calls s :
  service_calls (scheduled_state cfg s) = service_calls s.
Proof. unfold scheduled_state, arm_timer. by repeat case_match. Qed.

Lemma admitted_service_calls i s :
  service_calls (admitted_state cfg i s) = service_calls s.
Proof.
  unfold admitted_state. cbn [service_calls set_queue_lock].
  by rewrite scheduled_service_calls.
Qed.

Lemma handed_over_service_calls s :
  service_calls (handed_over_state cfg s) = service_calls s.
Proof.
  unfold handed_over_state. cbn [service_calls set_queue_lock].
  rewrite scheduled_service_calls. unfold sliced_state, cleared_state.
  by destruct (needs_processing_timer s).
Qed.

Lemma handed_over_fields s :
  is_Some (needs_processing s) →
  pc (handed_over_state cfg s) = pc s ∧
  queue_lock (handed_over_state cfg s) = Some false ∧
  queue (handed_over_state cfg s) =
    drop (length (py_slice_to (max_batch_size cfg) (queue s))) (queue s) ∧
  dispatched (handed_over_state cfg s) = dispatched s ∧
  heap (handed_over_state cfg s) = heap s ∧
  now (handed_over_state cfg s) = now s ∧
  is_Some (needs_processing (handed_over_state cfg s)).
Proof.
  intros Hn.
  destruct (cleared_same_core s Hn) as (C1 & C2 & C3 & C4 & C5 & _ & C7).
  specialize (C7 Hn).
  assert (now (cleared_state s) = now s) as Cnow.
  { unfold cleared_state. by destruct (needs_processing_timer s). }
  destruct (scheduled_same_core (sliced_state cfg s)) as
    (E1 & E2 & E3 & E4 & E5 & _ & E7); [done|].
  specialize (E7 C7).
  assert (now (scheduled_state cfg (sliced_state cfg s)) = now s) as Enow.
  { by rewrite scheduled_now. }
  unfold handed_over_state. simpl in *.
  rewrite E1, E3, E4, E5, C1, C4, C5.
  done.
Qed.

Lemma Inv_handed_over s :
  Inv s → pc s = Waiting →
  let tp := py_slice_to (max_batch_size cfg) (queue s) in
  Inv (set_dispatched (dispatched s ++ [tp])
         (set_pc (Executing tp (inputs_of (heap s) tp))
            (handed_over_state cfg s))).
Proof.
  intros I Hpc tp.
  destruct (Inv_started s I) as [Hl Hn]; [by rewrite Hpc|].
  destruct (handed_over_fields s Hn) as (F1 & F2 & F3 & F4 & F5 & _ & F7).
  assert (Hsplit := py_slice_to_split (max_batch_size cfg) (queue s)).
  fold tp in Hsplit, F3.
  pose proof (inv_pending s I) as Hp. unfold in_flight in Hp.
  rewrite Hpc, app_nil_r in Hp.
  destruct I as [I1 I2 I3 I4 I5 I6 I7].
  remember (handed_over_state cfg s) as ho eqn:Eho. clear Eho.
  split; simpl; rewrite ?F2, ?F3, ?F4, ?F5; try done.
  - rewrite concat_app. simpl. rewrite app_nil_r, <- app_assoc.
    by rewrite Hsplit.
  - rewrite concat_app. simpl. rewrite app_nil_r, <- app_assoc.
    by rewrite Hsplit.
  - intros t o Ht. apply Hp. rewrite <- Hsplit.
    apply elem_of_app. apply elem_of_app in Ht. tauto.
  - intros tp' batch [= <- <-]. split; [by eexists|].
    apply inputs_of_has_input. rewrite <- Hsplit in I4.
    rewrite !Forall_app in I4. tauto.
Qed.

Lemma Inv_in_flight_NoDup s : Inv s → NoDup (in_flight s).
Proof.
  intros I. unfold in_flight. destruct (pc s) eqn:Hpc; try constructor.
  destruct (inv_exec s I _ _ Hpc) as [[pre Hd] _].
  pose proof (inv_nodup s I) as Hnd.
  rewrite Hd, concat_app in Hnd. simpl in Hnd. rewrite app_nil_r in Hnd.
  apply NoDup_app in Hnd as (Hnd & _ & _).
  by apply NoDup_app in Hnd as (_ & _ & Hnd).
Qed.

Lemma Inv_queue_not_in_flight s t :
  Inv s → t ∈ queue s → t ∉ in_flight s.
Proof.
  intros I Hq Hf. pose proof (inv_nodup s I) as Hnd.
  apply NoDup_app in Hnd as (_ & Hdisj & _).
  apply (Hdisj t); [|done]. by apply in_flight_dispatched.
Qed.

Lemma Inv_delivered s tp batch (res : list (Value Output Exn)) :
  Inv s → pc s = Executing tp batch →
  Inv (set_pc Waiting (set_heap (delivered (zip tp res) (heap s)) s)).
Proof.
  intros I Hpc.
  destruct (Inv_started s I) as [Hl Hn]; [by rewrite Hpc|].
  pose proof (Inv_in_flight_NoDup s I) as Hnd.
  pose proof (λ t, Inv_queue_not_in_flight s t I) as Hdisj.
  pose proof (inv_pending s I) as Hp.
  unfold in_flight in Hnd, Hdisj, Hp. rewrite Hpc in Hnd, Hdisj, Hp.
  assert (NoDup (zip tp res).*1) as Hnd'.
  { rewrite fst_zip_take. eapply sublist_NoDup; [exact Hnd|apply sublist_take]. }
  assert (∀ t, t ∈ (zip tp res).*1 → t ∈ tp) as Hsub.
  { intros t. rewrite fst_zip_take. intros Ht.
    apply elem_of_take in Ht as (j & Hj & _). by eapply list_elem_of_lookup_2. }
  destruct I as [I1 I2 I3 I4 I5 I6 I7].
  split; simpl; rewrite ?length_delivered; try done.
  - rewrite Forall_lookup. intros t o' Ho'.
    destruct (decide (t ∈ (zip tp res).*1)) as [Hin|Hnot].
    + apply list_elem_of_fmap in Hin as ([t' r] & -> & Hin). simpl in *.
      assert (is_Some (heap s !! t')) as [o Ho].
      { apply lookup_lt_is_Some. apply lookup_lt_Some in Ho'.
        by rewrite length_delivered in Ho'. }
      rewrite (delivered_in _ _ t' r o) in Ho' by done. simplify_eq.
      right. apply complete_pending. apply (Hp t'); [|done].
      apply elem_of_app. right. apply Hsub.
      by apply (list_elem_of_fmap_2 fst _ (t', r)).
    + rewrite delivered_notin in Ho' by done.
      rewrite Forall_lookup in I5. by eapply I5.
  - intros t o Ht. unfold in_flight in Ht. simpl in Ht.
    rewrite app_nil_r in Ht. rewrite delivered_notin.
    + apply Hp. apply elem_of_app. by left.
    + intros Hin. by apply (Hdisj t), Hsub.
Qed.

(** *** Steps of the machine, from a state that satisfies the invariant *)

Lemma model_runner_dispatch_idle s :
  needs_processing s = Some false →
  model_runner_dispatch cfg s = (Suspend, s).
Proof.
  intros Hn. unfold model_runner_dispatch, model_runner_wake, event_wait,
    event_attr. run.
  by rewrite Hn.
Qed.

Lemma event_set_spec s :
  is_Some (needs_processing s) →
  event_set s = (Ok (), set_needs_processing (Some true) s).
Proof. intros [b Hb]. unfold event_set, event_attr. run. by rewrite Hb. Qed.

Lemma step_spec e s s' :
  Inv s → step cfg e s = Some s' →
  match e with
  | EStart =>
      pc s = NotStarted ∧
      s' = set_pc Waiting
             (set_needs_processing (Some false) (set_queue_lock (Some false) s))
  | ESubmit i =>
      (s' = with_task i s ∧
       (pc s = NotStarted ∨ max_queue_size cfg ≤ Z.of_nat (length (queue s)))) ∨
      (s' = admitted_state cfg i s ∧ pc s ≠ NotStarted ∧
       Z.of_nat (length (queue s)) < max_queue_size cfg)
  | ETick d => 0 ≤ d ∧ s' = set_now (now s + d) s
  | EFire h =>
      ∃ tm, timers s !! h = Some tm ∧ outstanding tm = true ∧
            when tm ≤ now s ∧ pc s ≠ NotStarted ∧
            s' = set_needs_processing (Some true)
                   (set_timers (alter fire_handle h (timers s)) s)
  | EWake =>
      let tp := py_slice_to (max_batch_size cfg) (queue s) in
      pc s = Waiting ∧ needs_processing s = Some true ∧
      s' = set_dispatched (dispatched s ++ [tp])
             (set_pc (Executing tp (inputs_of (heap s) tp))
                (handed_over_state cfg s))
  | EFinish parse =>
      ∃ tp batch, pc s = Executing tp batch ∧
        s' = delivered_state parse tp batch s
  end.
Proof.
  intros I Hstep.
  assert (pc s = NotStarted ∨ pc s ≠ NotStarted) as Hpcs
    by (destruct (pc s); eauto).
  destruct e as [|i|d|h| |parse]; simpl in Hstep.
  - destruct (pc s); try done. by simplify_eq.
  - destruct Hpcs as [Hpc|Hpc].
    + pose proof (inv_started s I) as Hs. rewrite Hpc in Hs.
      destruct Hs as (Hl & _). rewrite process_input_unstarted in Hstep by done.
      simplify_eq. eauto.
    + destruct (Inv_started s I Hpc) as [Hl Hn].
      destruct (Z_lt_ge_dec (Z.of_nat (length (queue s))) (max_queue_size cfg)).
      * rewrite process_input_accept in Hstep; [|done|done| |done].
        { simplify_eq. eauto. }
        pose proof (inv_valid s I) as Hv. rewrite Forall_app in Hv. tauto.
      * rewrite process_input_reject in Hstep by (done || lia).
        simplify_eq. left. split; [done|right; lia].
  - destruct (Z.leb_spec 0 d); by simplify_eq.
  - unfold loop_fire in Hstep.
    destruct (timers s !! h) as [tm|] eqn:Htm; [|done].
    destruct (outstanding tm) eqn:Hout; [|done]. simpl in Hstep.
    destruct (Z.leb_spec (when tm) (now s)); [|done].
    destruct Hpcs as [Hpc|Hpc].
    + pose proof (inv_started s I) as Hs. rewrite Hpc in Hs.
      destruct Hs as (_ & Hn & _).
      unfold event_set, event_attr in Hstep. revert Hstep. run.
      by rewrite Hn.
    + destruct (Inv_started s I Hpc) as [Hl Hn].
      rewrite event_set_spec in Hstep by done. simplify_eq.
      exists tm. eauto 10.
  - destruct (pc s) eqn:Hpc; try done.
    destruct (Inv_started s I) as [Hl [[|] Hn]]; [by rewrite Hpc| |].
    + rewrite model_runner_dispatch_spec in Hstep; [|done|done|].
      * simplify_eq.
        destruct (handed_over_fields s) as (_ & _ & _ & -> & _); [by eauto|].
        done.
      * pose proof (inv_valid s I) as Hv. rewrite Forall_app in Hv. tauto.
    + by rewrite model_runner_dispatch_idle in Hstep.
  - destruct (pc s) eqn:Hpc; try done.
    unfold model_runner_deliver, run_in_executor in Hstep.
    unfold bind, modify, ret in Hstep. rewrite fan_out_spec in Hstep.
    simplify_eq. eauto.
Qed.

Lemma step_Inv e s s' : Inv s → step cfg e s = Some s' → Inv s'.
Proof.
  intros I Hstep. pose proof (step_spec e s s' I Hstep) as Hs.
  destruct e as [|i|d|h| |parse].
  - destruct Hs as [Hpc ->]. pose proof (inv_started s I) as Hst.
    rewrite Hpc in Hst. destruct Hst as (_ & _ & Hq & Hd).
    destruct I as [I1 I2 I3 I4 I5 I6 I7].
    split; simpl; try done.
    intros t o. unfold in_flight. simpl. rewrite Hq. intros Ht.
    by apply elem_of_nil in Ht.
  - destruct Hs as [[-> _]|(-> & Hpc & _)].
    + by apply Inv_with_task.
    + by apply Inv_admitted.
  - destruct Hs as [_ ->]. eapply Inv_same_core; [|exact I]. by repeat split.
  - destruct Hs as (tm & _ & _ & _ & Hpc & ->).
    destruct (Inv_started s I Hpc) as [_ [b Hb]].
    eapply Inv_same_core; [|exact I]. repeat split; simpl; by eauto || congruence.
  - destruct Hs as (Hpc & _ & ->). by apply Inv_handed_over.
  - destruct Hs as (tp & batch & Hpc & ->).
    eapply Inv_same_core; [|by eapply (Inv_delivered s tp batch)].
    by repeat split.
Qed.

(** Induction over the runs of the machine. *)
Lemma exec_ind (P : State → Prop) :
  (∀ e s s', Inv s → P s → step cfg e s = Some s' → P s') →
  ∀ es s s', Inv s → P s → exec cfg es s = Some s' → Inv s' ∧ P s'.
Proof.
  intros Hstep es. induction es as [|e es IH]; intros s s' I HP Hex; simpl in Hex.
  - by simplify_eq.
  - destruct (step cfg e s) as [s1|] eqn:Hs; [|done].
    apply (IH s1); [by eapply step_Inv|by eapply Hstep|done].
Qed.

Lemma reachable_inv s : reachable cfg s → Inv s.
Proof.
  intros [es Hes].
  by destruct (exec_ind (λ _, True) (λ _ _ _ _ _ _, I) es _ _ Inv_init I Hes).
Qed.

Lemma reachable_step e s s' :
  reachable cfg s → step cfg e s = Some s' → reachable cfg s'.
Proof.
  intros [es Hes] Hstep. exists (es ++ [e]).
  revert Hes. generalize (@init Input Output Exn) as s0.
  induction es as [|e0 es IH]; intros s0 Hes; simpl in *.
  - simplify_eq. by rewrite Hstep.
  - destruct (step cfg e0 s0); [by apply IH|done].
Qed.

(** *** Admission *)

Lemma admitted_fields i s :
  is_Some (needs_processing s) →
  pc (admitted_state cfg i s) = pc s ∧
  queue_lock (admitted_state cfg i s) = Some false ∧
  queue (admitted_state cfg i s) = queue s ++ [length (heap s)] ∧
  dispatched (admitted_state cfg i s) = dispatched s ∧
  heap (admitted_state cfg i s) = heap s ++ [mkTask false 0 i (now s) None] ∧
  now (admitted_state cfg i s) = now s ∧
  is_Some (needs_processing (admitted_state cfg i s)).
Proof.
  intros Hn. unfold admitted_state.
  match goal with |- context [scheduled_state _ ?X] =>
    destruct (scheduled_same_core X) as (E1 & E2 & E3 & E4 & E5 & _ & E7);
      [done|];
    pose proof (scheduled_now X) as E8
  end.
  simpl in *. rewrite E1, E3, E4, E5, E8. repeat split; by eauto.
Qed.

Lemma process_input_unfold s i :
  queue_lock s = Some false →
  process_input cfg i s =
    let '(r1, s2) :=
      process_input_locked cfg (length (heap s))
        (set_queue_lock (Some true) (with_task i s)) in
    (match r1 with
     | Ok _ => Ok (length (heap s))
     | Raise e => Raise e
     | Suspend => Suspend
     end, set_queue_lock (Some false) s2).
Proof.
  intros Hl. unfold process_input, loop_time, new_task, with_lock, lock_acquire,
    lock_release.
  run. rewrite Hl. simpl. unfold with_task.
  by destruct (process_input_locked _ _ _) as [[| |] ?].
Qed.

Lemma step_queue_bound e s s' :
  Inv s → Z.of_nat (length (queue s)) ≤ max_queue_size cfg →
  step cfg e s = Some s' →
  Z.of_nat (length (queue s')) ≤ max_queue_size cfg.
Proof.
  intros I Hb Hstep. pose proof (step_spec e s s' I Hstep) as Hs.
  destruct e as [|i|d|h| |parse].
  - by destruct Hs as [_ ->].
  - destruct Hs as [[-> _]|(-> & Hpc & Hroom)]; [done|].
    destruct (Inv_started s I Hpc) as [_ Hn].
    destruct (admitted_fields i s Hn) as (_ & _ & -> & _).
    rewrite length_app. simpl. lia.
  - by destruct Hs as [_ ->].
  - by destruct Hs as (tm & _ & _ & _ & _ & ->).
  - destruct Hs as (Hpc & Hn & ->). cbn [queue set_dispatched set_pc].
    destruct (handed_over_fields s) as (_ & _ & -> & _); [by eauto|].
    rewrite length_drop. lia.
  - by destruct Hs as (tp & batch & _ & ->).
Qed.

Lemma reachable_queue_bound s :
  0 ≤ max_queue_size cfg → reachable cfg s →
  Z.of_nat (length (queue s)) ≤ max_queue_size cfg.
Proof.
  intros Hmax [es Hes].
  apply (exec_ind (λ s, Z.of_nat (length (queue s)) ≤ max_queue_size cfg))
    in Hes as [_ Hb]; [done| |apply Inv_init|done].
  intros e s0 s1 I0 Hb Hstep. by eapply step_queue_bound.
Qed.

Lemma schedule_keeps_lock s (r : result ()) s' :
  schedule_processing_if_needed cfg s = (r, s') → queue_lock s' = queue_lock s.
Proof.
  unfold schedule_processing_if_needed, event_set, event_attr, task_get,
    loop_call_at.
  run. intros H. repeat case_match; by simplify_eq.
Qed.

Lemma process_input_locked_keeps_lock n s (r : result ()) s' :
  process_input_locked cfg n s = (r, s') → queue_lock s' = queue_lock s.
Proof.
  unfold process_input_locked. run. destruct (_ >=? _).
  - by intros [= _ <-].
  - intros H. by apply schedule_keeps_lock in H.
Qed.

(** C1.  Whatever events led to the current state, the queue holds at most
    [max_queue_size] tasks right after [process_input] has decided.  Once
    [model_runner] is running, the call raises [HandlingError] with code 503
    exactly when the queue already holds [max_queue_size] tasks or more, and
    then leaves the queue alone; otherwise it appends its task.  Test and
    append are the body of [async with self.queue_lock]: the lock is free
    when the call starts, so [lock_acquire], run on the state in which the
    task dict has just been built, takes the lock at once; the body runs
    from the state [lock_acquire] leaves and ends with the lock still
    held; [lock_release] then frees it, and what [with_lock] returns is
    what the call leaves. *)
Theorem process_input_admission s i :
  0 ≤ max_queue_size cfg → reachable cfg s →
  let r := fst (process_input cfg i s) in
  let s' := snd (process_input cfg i s) in
  Z.of_nat (length (queue s')) ≤ max_queue_size cfg ∧
  (pc s ≠ NotStarted →
   (r = Raise (HandlingError "I'm too busy" 503) ↔
      max_queue_size cfg ≤ Z.of_nat (length (queue s))) ∧
   (max_queue_size cfg ≤ Z.of_nat (length (queue s)) → queue s' = queue s) ∧
   (Z.of_nat (length (queue s)) < max_queue_size cfg →
      r = Ok (length (heap s)) ∧ queue s' = queue s ++ [length (heap s)]) ∧
   queue_lock s = Some false ∧ queue_lock s' = Some false ∧
   ∃ r1 s2,
     process_input_locked cfg (length (heap s))
       (set_queue_lock (Some true) (with_task i s)) = (r1, s2) ∧
     queue_lock s2 = Some true ∧
     s' = set_queue_lock (Some false) s2 ∧
     r = match r1 with
         | Ok _ => Ok (length (heap s))
         | Raise e => Raise e
         | Suspend => Suspend
         end ∧
     new_task (mkTask false 0 i (now s) None) s =
       (Ok (length (heap s)), with_task i s) ∧
     lock_acquire (with_task i s) =
       (Ok (), set_queue_lock (Some true) (with_task i s)) ∧
     lock_release s2 = (Ok (), s') ∧
     with_lock (process_input_locked cfg (length (heap s))) (with_task i s) =
       (r1, s')).
Proof.
  intros Hmax Hreach r s'. subst r s'.
  pose proof (reachable_inv s Hreach) as I.
  pose proof (reachable_queue_bound s Hmax Hreach) as Hb.
  assert (pc s = NotStarted ∨ pc s ≠ NotStarted) as [Hpc|Hpc]
    by (destruct (pc s); eauto).
  { pose proof (inv_started s I) as Hs. rewrite Hpc in Hs.
    destruct Hs as (Hl & _). rewrite process_input_unstarted by done.
    split; [done|]. by intros []. }
  destruct (Inv_started s I Hpc) as [Hl Hn].
  assert (Forall (λ t, (t < length (heap s))%nat) (queue s)) as Hv.
  { pose proof (inv_valid s I) as Hv. rewrite Forall_app in Hv. tauto. }
  assert (∃ r1 s2,
    process_input_locked cfg (length (heap s))
      (set_queue_lock (Some true) (with_task i s)) = (r1, s2) ∧
    queue_lock s2 = Some true ∧
    snd (process_input cfg i s) = set_queue_lock (Some false) s2 ∧
    fst (process_input cfg i s) =
      match r1 with
      | Ok _ => Ok (length (heap s))
      | Raise e => Raise e
      | Suspend => Suspend
      end ∧
    new_task (mkTask false 0 i (now s) None) s =
      (Ok (length (heap s)), with_task i s) ∧
    lock_acquire (with_task i s) =
      (Ok (), set_queue_lock (Some true) (with_task i s)) ∧
    lock_release s2 = (Ok (), snd (process_input cfg i s)) ∧
    with_lock (process_input_locked cfg (length (heap s))) (with_task i s) =
      (r1, snd (process_input cfg i s))) as Hlocked.
  { rewrite (process_input_unfold s i Hl).
    assert (lock_acquire (with_task i s) =
              (Ok (), set_queue_lock (Some true) (with_task i s))) as Hacq
      by by apply lock_acquire_free.
    unfold with_lock. rewrite Hacq.
    destruct (process_input_locked _ _ _) as [r1 s2] eqn:Hloc.
    exists r1, s2. repeat split.
    by apply process_input_locked_keeps_lock in Hloc. }
  destruct (Z_lt_ge_dec (Z.of_nat (length (queue s))) (max_queue_size cfg))
    as [Hroom|Hfull].
  - rewrite process_input_accept in * by done. cbn [fst snd] in *.
    destruct (admitted_fields i s Hn) as (_ & F2 & F3 & _).
    rewrite F2, F3, length_app. simpl.
    split; [lia|]. intros _. repeat split; try done; lia.
  - rewrite process_input_reject in * by (done || lia). cbn [fst snd] in *.
    split; [done|]. intros _. repeat split; try done; lia.
Qed.

(** C3 (as amended).  A request that finds the queue full gets the 503
    [HandlingError] at once.  Its task dict has been built by then (line 56
    comes before the test), but nothing refers to it: the queue, the ready
    event, the timers and the stored handle, the lock, the clock and every
    existing task are exactly as before. *)
Theorem rejected_request_changes_nothing s i :
  reachable cfg s → pc s ≠ NotStarted →
  max_queue_size cfg ≤ Z.of_nat (length (queue s)) →
  ∃ s',
    process_input cfg i s = (Raise (HandlingError "I'm too busy" 503), s') ∧
    queue s' = queue s ∧
    needs_processing s' = needs_processing s ∧
    needs_processing_timer s' = needs_processing_timer s ∧
    timers s' = timers s ∧
    queue_lock s' = queue_lock s ∧
    now s' = now s ∧ pc s' = pc s ∧ dispatched s' = dispatched s ∧
    heap s' = heap s ++ [mkTask false 0 i (now s) None] ∧
    length (heap s) ∉ concat (dispatched s') ++ queue s' ++ in_flight s'.
Proof.
  intros Hreach Hpc Hfull. pose proof (reachable_inv s Hreach) as I.
  destruct (Inv_started s I Hpc) as [Hl _].
  exists (with_task i s). rewrite process_input_reject by done.
  repeat split. unfold in_flight. simpl. fold (in_flight s).
  intros Hin. assert (length (heap s) < length (heap s))%nat; [|lia].
  pose proof (inv_valid s I) as Hv. rewrite Forall_forall in Hv.
  rewrite app_assoc in Hin. apply elem_of_app in Hin as [Hin|Hin].
  - by apply Hv.
  - apply Hv. apply elem_of_app. left. by apply in_flight_dispatched.
Qed.

(** *** Dispatch *)

Lemma step_wake s :
  Inv s → pc s = Waiting → needs_processing s = Some true →
  let tp := py_slice_to (max_batch_size cfg) (queue s) in
  step cfg EWake s =
    Some (set_dispatched (dispatched s ++ [tp])
            (set_pc (Executing tp (inputs_of (heap s) tp))
               (handed_over_state cfg s))).
Proof.
  intros I Hpc Hn tp. simpl. rewrite Hpc.
  destruct (Inv_started s I) as [Hl _]; [by rewrite Hpc|].
  rewrite model_runner_dispatch_spec; [|done|done|].
  - destruct (handed_over_fields s) as (_ & _ & _ & -> & _); [by eauto|].
    done.
  - pose proof (inv_valid s I) as Hv. rewrite Forall_app in Hv. tauto.
Qed.

(** C5.  When the dispatcher wakes, one segment under the lock takes the
    first [min(len(queue), max_batch_size)] tasks off the front of the
    queue, in queue order, as [to_process], leaves the rest queued, and runs
    [schedule_processing_if_needed] on that rest while the lock is still
    held; only then is the lock released and the batch of inputs handed to
    the executor.  Step by step: the wake-up (lines 83-87) leaves
    [cleared_state s]; the lock is free there and [lock_acquire] takes it
    at once; the body of the [async with], run from the state
    [lock_acquire] leaves, returns [to_process] and ends with the lock
    still held, the scheduler having run on the rest; [lock_release] frees
    the lock; and this is what [with_lock] and the whole iteration
    compute. *)
Theorem dispatch_takes_oldest s :
  0 ≤ max_batch_size cfg → reachable cfg s →
  pc s = Waiting → needs_processing s = Some true →
  let k := (Z.to_nat (max_batch_size cfg) `min` length (queue s))%nat in
  let tp := take k (queue s) in
  ∃ s',
    step cfg EWake s = Some s' ∧
    pc s' = Executing tp (inputs_of (heap s) tp) ∧
    length tp = k ∧ Z.of_nat (length tp) ≤ max_batch_size cfg ∧
    queue s' = drop k (queue s) ∧
    queue s = tp ++ queue s' ∧
    dispatched s' = dispatched s ++ [tp] ∧
    heap s' = heap s ∧
    Forall2 (has_input (heap s)) tp (inputs_of (heap s) tp) ∧
    queue_lock s = Some false ∧
    queue_lock (sliced_state cfg s) = Some true ∧
    queue (sliced_state cfg s) = drop k (queue s) ∧
    schedule_processing_if_needed cfg (sliced_state cfg s) =
      (Ok (), scheduled_state cfg (sliced_state cfg s)) ∧
    queue_lock (scheduled_state cfg (sliced_state cfg s)) = Some true ∧
    s' = set_dispatched (dispatched s ++ [tp])
           (set_pc (Executing tp (inputs_of (heap s) tp))
              (set_queue_lock (Some false)
                 (scheduled_state cfg (sliced_state cfg s)))) ∧
    model_runner_wake s = (Ok (), cleared_state s) ∧
    ∃ s1 s2 s3,
      lock_acquire (cleared_state s) = (Ok (), s1) ∧
      queue_lock (cleared_state s) = Some false ∧ queue_lock s1 = Some true ∧
      queue s1 = queue s ∧
      model_runner_locked cfg s1 = (Ok tp, s2) ∧
      s2 = scheduled_state cfg (sliced_state cfg s) ∧
      queue_lock s2 = Some true ∧ queue s2 = drop k (queue s) ∧
      lock_release s2 = (Ok (), s3) ∧ queue_lock s3 = Some false ∧
      with_lock (model_runner_locked cfg) (cleared_state s) = (Ok tp, s3) ∧
      model_runner_dispatch cfg s = (Ok (tp, inputs_of (heap s) tp), s3) ∧
      s' = set_dispatched (dispatched s ++ [tp])
             (set_pc (Executing tp (inputs_of (heap s) tp)) s3).
Proof.
  intros Hmb Hreach Hpc Hn k tp. pose proof (reachable_inv s Hreach) as I.
  destruct (Inv_started s I) as [Hl _]; [by rewrite Hpc|].
  assert (Hslice : py_slice_to (max_batch_size cfg) (queue s) = tp)
    by by apply py_slice_to_nonneg.
  assert (Hlen : length tp = k).
  { unfold tp. rewrite length_take. unfold k. lia. }
  pose proof (step_wake s I Hpc Hn) as Hstep. simpl in Hstep.
  rewrite Hslice in Hstep.
  destruct (handed_over_fields s) as (F1 & F2 & F3 & F4 & F5 & _); [by eauto|].
  rewrite Hslice, Hlen in F3.
  assert (Forall (λ t, (t < length (heap s))%nat) (queue s)) as Hv.
  { pose proof (inv_valid s I) as Hv. rewrite Forall_app in Hv. tauto. }
  destruct (cleared_same_core s) as (C1 & C2 & C3 & C4 & C5 & _ & C7);
    [by eauto|].
  assert (queue_lock (scheduled_state cfg (sliced_state cfg s)) = Some true)
    as Hheld.
  { destruct (scheduled_same_core (sliced_state cfg s)) as (_ & -> & _); [|done].
    unfold sliced_state. simpl. apply C7. by eauto. }
  assert (queue (scheduled_state cfg (sliced_state cfg s)) = drop k (queue s))
    as Hrest.
  { destruct (scheduled_same_core (sliced_state cfg s)) as (_ & _ & -> & _).
    - unfold sliced_state. simpl. apply C7. by eauto.
    - unfold sliced_state. simpl. by rewrite Hslice, Hlen. }
  pose proof (model_runner_locked_spec s Hn Hv) as Hbody.
  pose proof (with_lock_model_runner_spec s Hn Hl Hv) as Hwith.
  pose proof (model_runner_dispatch_spec s Hn Hl Hv) as Hdisp.
  rewrite Hslice in Hbody, Hwith, Hdisp.
  eexists. split; [exact Hstep|].
  cbn [pc queue dispatched heap set_dispatched set_pc].
  rewrite ?F3, ?F4, ?F5.
  split_and!; try done.
  - lia.
  - unfold tp. by rewrite take_drop.
  - apply inputs_of_has_input. unfold tp.
    by eapply Forall_take.
  - unfold sliced_state. simpl. by rewrite Hslice, Hlen.
  - apply schedule_spec.
    + unfold sliced_state. simpl. apply C7. by eauto.
    + unfold sliced_state. simpl. rewrite C5. intros t Ht.
      apply lookup_lt_is_Some_2. rewrite Forall_forall in Hv. apply Hv.
      apply head_Some_elem_of in Ht. by eapply subseteq_drop.
  - by apply model_runner_wake_spec.
  - exists (set_queue_lock (Some true) (cleared_state s)),
      (scheduled_state cfg (sliced_state cfg s)), (handed_over_state cfg s).
    split_and!; try done.
    + apply lock_acquire_free. by rewrite C2.
    + by rewrite C2.
Qed.

Lemma elem_of_concat {A} (L : list (list A)) (b : list A) x :
  b ∈ L → x ∈ b → x ∈ concat L.
Proof.
  rewrite !list_elem_of_In. intros Hb Hx. apply in_concat. eauto.
Qed.

Lemma NoDup_concat_lookup {A} (L : list (list A)) i j b1 b2 x :
  NoDup (concat L) → L !! i = Some b1 → L !! j = Some b2 →
  x ∈ b1 → x ∈ b2 → i = j.
Proof.
  revert i j. induction L as [|b L IH]; intros i j Hnd Hi Hj H1 H2; [done|].
  simpl in Hnd. apply NoDup_app in Hnd as (Hb & Hdisj & HL).
  destruct i as [|i], j as [|j]; simpl in *; simplify_eq; try done.
  - exfalso. apply (Hdisj x H1).
    eapply elem_of_concat; [by eapply list_elem_of_lookup_2|done].
  - exfalso. apply (Hdisj x H2).
    eapply elem_of_concat; [by eapply list_elem_of_lookup_2|done].
  - f_equal. eauto.
Qed.

Lemma NoDup_concat_elem {A} (L : list (list A)) (b : list A) :
  NoDup (concat L) → b ∈ L → NoDup b.
Proof.
  induction L as [|b' L IH]; intros Hnd Hb; [by apply elem_of_nil in Hb|].
  simpl in Hnd. apply NoDup_app in Hnd as (Hb' & _ & HL).
  apply elem_of_cons in Hb as [->|Hb]; eauto.
Qed.

(** C9.  In every state any interleaving of submissions, clock ticks, timer
    callbacks, dispatches and deliveries can reach, the batches sliced off
    so far are pairwise disjoint and free of repetitions, and no task of any
    of them is in the queue any more: once dispatched, a task cannot be
    picked again. *)
Theorem no_task_dispatched_twice s :
  reachable cfg s →
  NoDup (concat (dispatched s) ++ queue s) ∧
  (∀ i j b1 b2 t,
     dispatched s !! i = Some b1 → dispatched s !! j = Some b2 →
     t ∈ b1 → t ∈ b2 → i = j) ∧
  (∀ b, b ∈ dispatched s → NoDup b) ∧
  (∀ b t, b ∈ dispatched s → t ∈ b → t ∉ queue s).
Proof.
  intros Hreach. pose proof (inv_nodup s (reachable_inv s Hreach)) as Hnd.
  split; [done|]. apply NoDup_app in Hnd as (Hd & Hdisj & Hq).
  split; [|split].
  - intros i j b1 b2 t. by apply NoDup_concat_lookup.
  - intros b. by apply NoDup_concat_elem.
  - intros b t Hb Ht. apply Hdisj. by eapply elem_of_concat.
Qed.

(** *** Tasks the runner no longer refers to *)

Lemma step_keeps_untracked e s s' t :
  Inv s → step cfg e s = Some s' →
  (t < length (heap s))%nat → t ∉ queue s ++ in_flight s →
  heap s' !! t = heap s !! t ∧ (t < length (heap s'))%nat ∧
  t ∉ queue s' ++ in_flight s'.
Proof.
  intros I Hstep Hlt Hun. pose proof (step_spec e s s' I Hstep) as Hs.
  assert (t ∉ queue s) as Hq by (intros ?; apply Hun, elem_of_app; by left).
  destruct e as [|i|d|h| |parse].
  - destruct Hs as [Hpc ->]. unfold in_flight. simpl.
    by rewrite app_nil_r.
  - destruct Hs as [[-> _]|(-> & Hpc & _)].
    + unfold in_flight in *. simpl. rewrite lookup_app_l, length_app by done.
      split; [done|]. split; [lia|done].
    + destruct (Inv_started s I Hpc) as [_ Hn].
      destruct (admitted_fields i s Hn) as (F1 & _ & F3 & _ & F5 & _).
      unfold in_flight in *. rewrite F1, F3, F5.
      rewrite lookup_app_l, length_app by done.
      split; [done|]. split; [lia|].
      rewrite <- app_assoc. intros Hin. apply elem_of_app in Hin as [Hin|Hin].
      * by apply Hq.
      * apply elem_of_cons in Hin as [->|Hin]; [lia|].
        apply Hun, elem_of_app. by right.
  - by destruct Hs as [_ ->].
  - by destruct Hs as (tm & _ & _ & _ & _ & ->).
  - destruct Hs as (Hpc & Hn & ->).
    destruct (handed_over_fields s) as (_ & _ & F3 & _ & F5 & _); [by eauto|].
    unfold in_flight. cbn [heap queue pc set_dispatched set_pc].
    rewrite F3, F5. split; [done|]. split; [done|].
    intros Hin. apply Hq.
    rewrite <- (py_slice_to_split (max_batch_size cfg) (queue s)).
    apply elem_of_app. apply elem_of_app in Hin. tauto.
  - destruct Hs as (tp & batch & Hpc & ->).
    unfold in_flight in *. rewrite Hpc in Hun. simpl.
    rewrite length_delivered, app_nil_r. split; [|done].
    apply delivered_notin. rewrite fst_zip_take. intros Hin.
    apply Hun, elem_of_app. right.
    apply elem_of_take in Hin as (j & Hj & _). by eapply list_elem_of_lookup_2.
Qed.

Lemma exec_keeps_untracked es s s' t :
  Inv s → exec cfg es s = Some s' →
  (t < length (heap s))%nat → t ∉ queue s ++ in_flight s →
  heap s' !! t = heap s !! t.
Proof.
  revert s. induction es as [|e es IH]; intros s I Hex Hlt Hun; simpl in Hex.
  - by simplify_eq.
  - destruct (step cfg e s) as [s1|] eqn:Hs; [|done].
    destruct (step_keeps_untracked e s s1 t I Hs Hlt Hun) as (E & Hlt1 & Hun1).
    rewrite <- E. apply IH; [by eapply step_Inv|done..].
Qed.

(** *** Delivery *)

Lemma step_finish s tp batch parse :
  pc s = Executing tp batch →
  step cfg (EFinish parse) s = Some (delivered_state parse tp batch s).
Proof.
  intros Hpc. simpl. rewrite Hpc.
  unfold model_runner_deliver, run_in_executor, bind, modify, ret.
  by rewrite fan_out_spec.
Qed.

Lemma complete_pending_eq (r : Value Output Exn) o :
  pending o →
  complete_task r o = mkTask true 1 (input o) (time o) (Some r).
Proof.
  intros (_ & Hs & _). unfold complete_task, fire_done, put_output. simpl.
  by rewrite Hs.
Qed.

Lemma delivery_per_task s tp batch parse :
  Inv s → pc s = Executing tp batch →
  let result := run_model parse batch in
  let s' := delivered_state parse tp batch s in
  step cfg (EFinish parse) s = Some s' ∧
  Forall2 (has_input (heap s)) tp batch ∧
  (∀ i t, tp !! i = Some t →
     ∃ o, heap s !! t = Some o ∧ pending o ∧
       heap s' !! t =
         match result !! i with
         | Some r => Some (mkTask true 1 (input o) (time o) (Some r))
         | None => Some o
         end ∧
       ∀ es s'', exec cfg es s' = Some s'' → heap s'' !! t = heap s' !! t) ∧
  (∀ t, t ∉ tp → heap s' !! t = heap s !! t).
Proof.
  intros I Hpc result s'.
  pose proof (step_finish s tp batch parse Hpc) as Hstep. fold s' in Hstep.
  unfold delivered_state in s'. fold result in s'.
  pose proof (step_Inv _ _ _ I Hstep) as I'.
  pose proof (Inv_in_flight_NoDup s I) as Hnd.
  pose proof (λ t, Inv_queue_not_in_flight s t I) as Hdisj.
  pose proof (Inv_ref_valid s) as Hval.
  pose proof (inv_pending s I) as Hp.
  unfold in_flight in Hnd, Hdisj, Hval, Hp. rewrite Hpc in Hnd, Hdisj, Hval, Hp.
  split; [done|]. split; [by apply (inv_exec s I)|]. split.
  - intros i t Hi.
    assert (t ∈ tp) as Ht by by eapply list_elem_of_lookup_2.
    assert (t < length (heap s))%nat as Hlt.
    { apply Hval; [done|]. apply elem_of_app. by right. }
    destruct (lookup_lt_is_Some_2 _ _ Hlt) as [o Ho].
    assert (pending o) as Hpo.
    { apply (Hp t); [|done]. apply elem_of_app. by right. }
    exists o. split; [done|]. split; [done|]. split.
    + subst s'. simpl. destruct (result !! i) as [r|] eqn:Hr.
      * rewrite <- (complete_pending_eq r o Hpo). apply delivered_in; [|
          apply elem_of_zip_lookup; by eauto|done].
        rewrite fst_zip_take. eapply sublist_NoDup; [exact Hnd|apply sublist_take].
      * rewrite delivered_notin; [done|]. rewrite fst_zip_take. intros Hin.
        apply elem_of_take in Hin as (j & Hj & Hlen).
        assert (j = i) as -> by by eapply NoDup_lookup.
        apply lookup_ge_None in Hr. lia.
    + intros es s'' Hex. eapply exec_keeps_untracked; [exact I'|exact Hex| |].
      * subst s'. simpl. by rewrite length_delivered.
      * subst s'. unfold in_flight. simpl. rewrite app_nil_r.
        intros Hq. by apply (Hdisj t).
  - intros t Hnot. subst s'. simpl. apply delivered_notin.
    rewrite fst_zip_take. intros Hin. apply Hnot.
    apply elem_of_take in Hin as (j & Hj & _). by eapply list_elem_of_lookup_2.
Qed.

(** C6.  When [service.parse] returns as many outputs as the batch has
    inputs, delivery gives the i-th output to the i-th task of
    [to_process] (whose input was the i-th element of [batch]), sets that
    task's event once, never touches the task again, and leaves every task
    outside the batch as it was. *)
Theorem outputs_follow_batch_order s tp batch parse outs :
  reachable cfg s → pc s = Executing tp batch →
  parse batch = inl outs → length outs = length batch →
  ∃ s',
    step cfg (EFinish parse) s = Some s' ∧ pc s' = Waiting ∧
    Forall2 (has_input (heap s)) tp batch ∧
    length outs = length tp ∧
    (∀ i t, tp !! i = Some t →
       ∃ r o, outs !! i = Some r ∧ heap s !! t = Some o ∧ pending o ∧
         heap s' !! t =
           Some (mkTask true 1 (input o) (time o) (Some (VOut r))) ∧
         process_input_return t s' = Some (VOut r) ∧
         ∀ es s'', exec cfg es s' = Some s'' → heap s'' !! t = heap s' !! t) ∧
    (∀ t, t ∉ tp → heap s' !! t = heap s !! t).
Proof.
  intros Hreach Hpc Hparse Hlen. pose proof (reachable_inv s Hreach) as I.
  destruct (delivery_per_task s tp batch parse I Hpc) as (Hstep & HF & Hin & Hout).
  eexists. split; [exact Hstep|]. split; [done|]. split; [done|].
  pose proof (Forall2_length _ _ _ HF) as Hl.
  split; [lia|]. split; [|done].
  intros i t Hi. destruct (Hin i t Hi) as (o & Ho & Hpo & Hnew & Hfrozen).
  destruct (lookup_lt_is_Some_2 outs i) as [r Hr].
  { apply lookup_lt_Some in Hi. lia. }
  assert (run_model parse batch !! i = Some (VOut r)) as Hres.
  { unfold run_model. by rewrite Hparse, list_lookup_fmap, Hr. }
  rewrite Hres in Hnew.
  exists r, o. split_and!; try done.
  unfold process_input_return. by rewrite Hnew.
Qed.

(** C7.  When [service.parse] raises, [run_model] answers with one copy of
    the exception per input, so every task of the batch gets that same
    exception as its output and has its event set once; none stays
    pending. *)
Theorem worker_failure_reaches_whole_batch s tp batch parse e :
  reachable cfg s → pc s = Executing tp batch → parse batch = inr e →
  ∃ s',
    step cfg (EFinish parse) s = Some s' ∧ pc s' = Waiting ∧
    ∀ t, t ∈ tp →
      ∃ o, heap s !! t = Some o ∧ pending o ∧
        heap s' !! t = Some (mkTask true 1 (input o) (time o) (Some (VExc e))) ∧
        process_input_return t s' = Some (VExc e) ∧
        ∀ es s'', exec cfg es s' = Some s'' → heap s'' !! t = heap s' !! t.
Proof.
  intros Hreach Hpc Hparse. pose proof (reachable_inv s Hreach) as I.
  destruct (delivery_per_task s tp batch parse I Hpc) as (Hstep & HF & Hin & _).
  eexists. split; [exact Hstep|]. split; [done|].
  pose proof (Forall2_length _ _ _ HF) as Hl.
  intros t Ht. apply list_elem_of_lookup in Ht as [i Hi].
  destruct (Hin i t Hi) as (o & Ho & Hpo & Hnew & Hfrozen).
  destruct (lookup_lt_is_Some_2 batch i) as [x Hx].
  { apply lookup_lt_Some in Hi. lia. }
  assert (run_model parse batch !! i = Some (VExc e)) as Hres.
  { unfold run_model. by rewrite Hparse, list_lookup_fmap, Hx. }
  rewrite Hres in Hnew.
  exists o. split_and!; try done.
  unfold process_input_return. by rewrite Hnew.
Qed.

(** C8 (as amended).  Delivery pairs tasks and results with [zip]: the
    tasks at positions below [len(result)] get their output and have their
    event set once; a task at a later position is left as it was, without
    output and with its event clear, and since nothing refers to it any
    more it stays so in every later state.  Hence every task of the batch
    is answered when the result is at least as long as the batch. *)
Theorem delivery_follows_zip s tp batch parse :
  reachable cfg s → pc s = Executing tp batch →
  let result := run_model parse batch in
  ∃ s',
    step cfg (EFinish parse) s = Some s' ∧ pc s' = Waiting ∧
    (∀ i t, tp !! i = Some t →
       ∃ o, heap s !! t = Some o ∧ pending o ∧
         match result !! i with
         | Some r =>
             heap s' !! t = Some (mkTask true 1 (input o) (time o) (Some r)) ∧
             process_input_return t s' = Some r
         | None =>
             heap s' !! t = Some o ∧ process_input_return t s' = None
         end ∧
         ∀ es s'', exec cfg es s' = Some s'' → heap s'' !! t = heap s' !! t) ∧
    ((length tp ≤ length result)%nat →
     ∀ t, t ∈ tp →
       ∃ o, heap s' !! t = Some o ∧ done_event o = true ∧
            done_sets o = 1%nat ∧ is_Some (output o)).
Proof.
  intros Hreach Hpc result. pose proof (reachable_inv s Hreach) as I.
  destruct (delivery_per_task s tp batch parse I Hpc) as (Hstep & HF & Hin & _).
  fold result in Hstep, Hin.
  eexists. split; [exact Hstep|]. split; [done|]. split.
  - intros i t Hi. destruct (Hin i t Hi) as (o & Ho & Hpo & Hnew & Hfrozen).
    exists o. split_and!; try done.
    unfold process_input_return. rewrite Hnew.
    destruct (result !! i) as [r|]; [done|].
    by destruct Hpo as (-> & _).
  - intros Hlong t Ht. apply list_elem_of_lookup in Ht as [i Hi].
    destruct (Hin i t Hi) as (o & Ho & Hpo & Hnew & _).
    destruct (lookup_lt_is_Some_2 result i) as [r Hr].
    { apply lookup_lt_Some in Hi. lia. }
    rewrite Hr in Hnew. eexists. split; [exact Hnew|]. simpl. by eauto.
Qed.

(** *** A batch that fills up *)

Lemma schedule_full s :
  is_Some (needs_processing s) →
  max_batch_size cfg ≤ Z.of_nat (length (queue s)) →
  schedule_processing_if_needed cfg s =
    (Ok (), set_needs_processing (Some true) s).
Proof.
  intros [b Hb] Hfull.
  unfold schedule_processing_if_needed, event_set, event_attr. run.
  destruct (Z.geb_spec (Z.of_nat (length (queue s))) (max_batch_size cfg));
    [by rewrite Hb|lia].
Qed.

Lemma admitted_ready i s :
  max_batch_size cfg ≤ Z.of_nat (length (queue s)) + 1 →
  needs_processing (admitted_state cfg i s) = Some true.
Proof.
  intros Hfull. unfold admitted_state, scheduled_state. simpl.
  rewrite length_app. simpl.
  destruct (Z.geb_spec (Z.of_nat (length (queue s) + 1)) (max_batch_size cfg));
    [done|lia].
Qed.

Lemma inputs_of_snoc (h : list Task) q (x : Task) :
  Forall (λ t, (t < length h)%nat) q →
  inputs_of (h ++ [x]) (q ++ [length h]) = inputs_of h q ++ [input x].
Proof.
  intros Hv. rewrite <- (inputs_of_app h x q Hv).
  unfold inputs_of. rewrite omap_app. f_equal. simpl.
  by rewrite lookup_app_r, Nat.sub_diag.
Qed.

Lemma arrivals_fill_queue es s :
  Inv s → pc s ≠ NotStarted →
  forallb arrival es = true →
  Z.of_nat (length (queue s)) + Z.of_nat (length (submitted es))
    ≤ max_queue_size cfg →
  (max_batch_size cfg ≤ Z.of_nat (length (queue s)) →
   needs_processing s = Some true) →
  ∃ s1,
    exec cfg es s = Some s1 ∧ Inv s1 ∧ pc s1 = pc s ∧
    queue s1 = queue s ++ seq (length (heap s)) (length (submitted es)) ∧
    inputs_of (heap s1) (queue s1) = inputs_of (heap s) (queue s) ++ submitted es ∧
    (max_batch_size cfg ≤ Z.of_nat (length (queue s1)) →
     needs_processing s1 = Some true).
Proof.
  revert s. induction es as [|e es IH]; intros s I Hpc Harr Hroom Hready.
  { exists s. simpl. by rewrite !app_nil_r. }
  simpl in Harr. apply andb_prop in Harr as [He Harr].
  destruct e as [|i|d|h| |parse]; try done.
  - assert (Forall (λ t, (t < length (heap s))%nat) (queue s)) as Hv.
    { pose proof (inv_valid s I) as Hv. rewrite Forall_app in Hv. tauto. }
    destruct (Inv_started s I Hpc) as [Hl Hn].
    simpl in Hroom.
    destruct (admitted_fields i s Hn) as (F1 & F2 & F3 & F4 & F5 & F6 & F7).
    destruct (IH (admitted_state cfg i s)) as (s1 & Hex & I1 & Hpc1 & Hq1 & Hin1 & Hr1).
    + by apply Inv_admitted.
    + by rewrite F1.
    + done.
    + rewrite F3, length_app. simpl. lia.
    + intros Hfull. apply admitted_ready.
      rewrite F3, length_app in Hfull. simpl in Hfull. lia.
    + exists s1. cbn [exec step].
      rewrite process_input_accept by (done || lia).
      split; [done|]. split; [done|]. split; [congruence|].
      split; [|split; [|done]].
      * rewrite Hq1, F3, F5, length_app. simpl.
        by rewrite <- !app_assoc, Nat.add_1_r.
      * rewrite Hin1, F3, F5. rewrite inputs_of_snoc by done. simpl.
        by rewrite <- !app_assoc.
  - simpl in He. apply Z.leb_le in He.
    destruct (IH (set_now (now s + d) s)) as (s1 & Hex & I1 & Hpc1 & Hq1 & Hin1 & Hr1);
      try done.
    + eapply Inv_same_core; [|exact I]. by repeat split.
    + exists s1. cbn [exec step].
      destruct (Z.leb_spec 0 d); [|lia]. done.
Qed.

(** C4.  Run with at least [max_batch_size] queued tasks, the scheduler
    sets [needs_processing] and changes nothing else: no timer is created
    and the stored handle stays as it is.  So when [max_batch_size] requests
    arrive at an idle runner, however the clock advances between them and
    with no timer callback needed, the event is set by the last of them, and
    the dispatcher, which was waiting for exactly that, takes all of them
    in one batch, in arrival order. *)
Theorem full_batch_is_ready_at_once s es :
  reachable cfg s → pc s = Waiting → queue s = [] →
  forallb arrival es = true →
  1 ≤ max_batch_size cfg → max_batch_size cfg ≤ max_queue_size cfg →
  Z.of_nat (length (submitted es)) = max_batch_size cfg →
  (∀ s0, is_Some (needs_processing s0) →
         max_batch_size cfg ≤ Z.of_nat (length (queue s0)) →
         schedule_processing_if_needed cfg s0 =
           (Ok (), set_needs_processing (Some true) s0)) ∧
  ∃ s1 s2,
    exec cfg es s = Some s1 ∧
    needs_processing s1 = Some true ∧
    queue s1 = seq (length (heap s)) (length (submitted es)) ∧
    step cfg EWake s1 = Some s2 ∧
    pc s2 = Executing (queue s1) (submitted es) ∧
    queue s2 = [] ∧ now s2 = now s1.
Proof.
  intros Hreach Hpc Hq Harr Hmb Hmq Hn.
  split; [exact schedule_full|].
  pose proof (reachable_inv s Hreach) as I.
  destruct (arrivals_fill_queue es s) as (s1 & Hex & I1 & Hpc1 & Hq1 & Hin1 & Hr1);
    try done.
  - by rewrite Hpc.
  - rewrite Hq. simpl. lia.
  - rewrite Hq. simpl. lia.
  - rewrite Hq in Hq1, Hin1. simpl in Hq1, Hin1.
    assert (needs_processing s1 = Some true) as Hset.
    { apply Hr1. rewrite Hq1, length_seq. lia. }
    assert (py_slice_to (max_batch_size cfg) (queue s1) = queue s1) as Hslice.
    { rewrite py_slice_to_nonneg by lia. apply take_ge.
      rewrite Hq1, length_seq. lia. }
    exists s1. eexists. split; [done|]. split; [done|]. split; [done|].
    split; [apply step_wake; [done|congruence|done]|].
    cbn [pc queue now set_dispatched set_pc].
    destruct (handed_over_fields s1) as (_ & _ & -> & _ & _ & -> & _);
      [by eauto|].
    rewrite Hslice, Hin1, drop_all. done.
Qed.

(** *** Waking up with nothing queued *)

Lemma empty_queue_wake s :
  reachable cfg s → pc s = Waiting → queue s = [] →
  needs_processing s = Some true →
  ∃ s', step cfg EWake s = Some s' ∧ pc s' = Executing [] [] ∧
        queue s' = [] ∧ dispatched s' = dispatched s ++ [[]].
Proof.
  intros Hreach Hpc Hq Hn. pose proof (reachable_inv s Hreach) as I.
  assert (py_slice_to (max_batch_size cfg) (queue s) = []) as Hslice.
  { rewrite Hq. unfold py_slice_to. by destruct (_ <? _); rewrite take_nil. }
  eexists. split; [by apply step_wake|].
  cbn [pc queue dispatched set_dispatched set_pc].
  destruct (handed_over_fields s) as (_ & _ & -> & _); [by eauto|].
  by rewrite Hslice, Hq.
Qed.

(** Which steps call the worker: a delivery, and only a delivery, adds one
    entry to the log of calls, namely the batch that was handed to the
    executor and what [service.parse] answered for it. *)
Lemma step_service_calls e s s' :
  Inv s → step cfg e s = Some s' →
  service_calls s' =
    match e, pc s with
    | EFinish parse, Executing _ batch =>
        service_calls s ++ [(batch, parse batch)]
    | _, _ => service_calls s
    end.
Proof.
  intros I Hstep. pose proof (step_spec e s s' I Hstep) as Hs.
  destruct e as [|i|d|h| |parse]; simpl in Hs.
  - by destruct Hs as (_ & ->).
  - destruct Hs as [(-> & _)|(-> & Hpc & Hlt)]; [done|].
    by rewrite admitted_service_calls.
  - by destruct Hs as (_ & ->).
  - by destruct Hs as (tm & _ & _ & _ & _ & ->).
  - destruct Hs as (Hpc & _ & ->).
    cbn [service_calls set_dispatched set_pc].
    by rewrite handed_over_service_calls.
  - destruct Hs as (tp & batch & Hpc & ->). by rewrite Hpc.
Qed.

Lemma step_heap_wake s s' :
  Inv s → step cfg EWake s = Some s' → heap s' = heap s.
Proof.
  intros I Hstep. destruct (step_spec EWake s s' I Hstep) as (_ & Hn & ->).
  cbn [heap set_dispatched set_pc].
  by destruct (handed_over_fields s) as (_ & _ & _ & _ & ? & _); [eauto|].
Qed.

(** The delivery of an empty batch: [service.parse] is called with the
    empty list, and no task is touched. *)
Lemma empty_batch_delivery s parse :
  pc s = Executing [] [] →
  ∃ s', step cfg (EFinish parse) s = Some s' ∧ pc s' = Waiting ∧
        service_calls s' = service_calls s ++ [([], parse [])] ∧
        heap s' = heap s ∧ queue s' = queue s.
Proof.
  intros Hpc. eexists. split; [by apply step_finish|]. by split_and!.
Qed.

End Properties.

(** * The statements at work on concrete runs *)

Lemma reachable_run_from (c : Config) (es : list Demo.ev) :
  exec c es init = Some (Demo.run_from c es) →
  reachable c (Demo.run_from c es).
Proof. intros Hs. by exists es. Defined.

(** C2 at work: with the default configuration, a second request one tick
    after the first makes the scheduler arm a second timer for the same
    deadline and store its handle over the first one, which stays armed:
    two deadline timers are outstanding. *)
Lemma second_timer_armed_without_cancel :
  let s := Demo.run_from Demo.defaults Demo.two_arrivals in
  queue s = [0; 1]%nat ∧
  needs_processing_timer s = Some 1%nat ∧
  timers s = [mkTimer 50 false true; mkTimer 50 false true] ∧
  length (filter (λ h, outstanding h) (timers s)) = 2%nat.
Proof. by vm_compute. Qed.

(** C3 as stated fails: with a full queue the call raises 503, yet the task
    dict of the rejected request has been created. *)
Lemma rejected_request_builds_task :
  let s := Demo.run_from Demo.small Demo.two_queued in
  let r := process_input Demo.small 12%nat s in
  Z.of_nat (length (queue s)) = max_queue_size Demo.small ∧
  fst r = Raise (HandlingError "I'm too busy" 503) ∧
  heap (snd r) = heap s ++ [mkTask false 0 12%nat 0 None] ∧
  length (heap s) = 2%nat ∧ length (heap (snd r)) = 3%nat.
Proof. by vm_compute. Qed.

(** C8 as stated fails: a batch of three answered with two outputs leaves
    the third task without output and with its event clear, although the
    dispatch cycle is over and the task is in no queue. *)
Lemma short_result_leaves_task_waiting :
  let s := Demo.run_from Demo.three Demo.executing in
  let s' :=
    Demo.run_from Demo.three
      (Demo.full_batch ++ [EWake; EFinish Demo.drop_last]) in
  pc s = Executing [0; 1; 2]%nat [10; 11; 12]%nat ∧
  step Demo.three (EFinish Demo.drop_last) s = Some s' ∧
  pc s' = Waiting ∧ queue s' = [] ∧
  process_input_return 0 s' = Some (VOut 10%nat) ∧
  process_input_return 1 s' = Some (VOut 11%nat) ∧
  process_input_return 2 s' = None ∧
  heap s' !! 2%nat = Some (mkTask false 0 12%nat 2 None).
Proof. by vm_compute. Qed.

(** C10.  The dispatcher can wake with an empty queue.  With
    [max_batch_size = 3]: the first request arms timer 0; the second arms
    timer 1 for the same deadline and its handle replaces that of timer 0
    in [needs_processing_timer]; the third fills the batch and sets the
    event.  The dispatcher cancels the stored handle (timer 1), takes all
    three tasks and delivers their results.  Timer 0 is still armed; when
    the clock reaches its deadline it sets the event, the dispatcher wakes
    with nothing queued and hands the empty batch to the executor; the
    cycle is not skipped: when it completes, the log of worker calls has
    one more entry, [service.parse] applied to the empty list, whatever
    the worker is, and no task has been touched.  Up to then the log held
    the one call for the three requests.  The last part holds in whichever
    reachable state the dispatcher wakes with an empty queue. *)
Theorem stale_timer_wakes_empty_queue :
  let s0 := Demo.run_from Demo.three Demo.two_arrivals in
  let s1 := Demo.run_from Demo.three Demo.drained in
  let s2 := Demo.run_from Demo.three (Demo.drained ++ [EFire 0%nat]) in
  let s3 := Demo.run_from Demo.three (Demo.drained ++ [EFire 0%nat; EWake]) in
  (needs_processing_timer s0 = Some 1%nat ∧
   timers s0 = [mkTimer 50 false true; mkTimer 50 false true]) ∧
  (exec Demo.three Demo.drained init = Some s1 ∧
   queue s1 = [] ∧ pc s1 = Waiting ∧ needs_processing s1 = Some false ∧
   dispatched s1 = [[0; 1; 2]%nat] ∧
   timers s1 = [mkTimer 50 false true; mkTimer 50 true true]) ∧
  (step Demo.three (EFire 0%nat) s1 = Some s2 ∧
   needs_processing s2 = Some true ∧ queue s2 = []) ∧
  (step Demo.three EWake s2 = Some s3 ∧
   pc s3 = Executing [] [] ∧ dispatched s3 = [[0; 1; 2]%nat; []] ∧
   service_calls s3 =
     [([10; 11; 12]%nat, Demo.echo [10; 11; 12]%nat)]) ∧
  (∀ parse, ∃ s4,
     step Demo.three (EFinish parse) s3 = Some s4 ∧ pc s4 = Waiting ∧
     service_calls s4 =
       [([10; 11; 12]%nat, Demo.echo [10; 11; 12]%nat); ([], parse [])] ∧
     heap s4 = heap s3) ∧
  (∀ (cfg : Config) (s : Demo.st),
     reachable cfg s → pc s = Waiting → queue s = [] →
     needs_processing s = Some true →
     ∃ s', step cfg EWake s = Some s' ∧ pc s' = Executing [] [] ∧
           queue s' = [] ∧ dispatched s' = dispatched s ++ [[]] ∧
           service_calls s' = service_calls s ∧
           ∀ parse, ∃ s'',
             step cfg (EFinish parse) s' = Some s'' ∧ pc s'' = Waiting ∧
             service_calls s'' = service_calls s ++ [([], parse [])] ∧
             heap s'' = heap s).
Proof.
  split_and!; try by vm_compute.
  - intros parse. eexists. by vm_compute.
  - intros cfg s Hreach Hpc Hq Hn.
    destruct (empty_queue_wake cfg s Hreach Hpc Hq Hn)
      as (s' & Hstep & Hpc' & Hq' & Hd).
    pose proof (step_service_calls cfg _ _ _ (reachable_inv cfg s Hreach) Hstep)
      as Hcalls.
    pose proof (step_heap_wake cfg s s' (reachable_inv cfg s Hreach) Hstep)
      as Hheap.
    exists s'. split_and!; try done.
    intros parse.
    destruct (empty_batch_delivery cfg s' parse Hpc')
      as (s'' & Hfin & Hpc'' & Hc'' & Hh'' & _).
    exists s''. split_and!; try done.
    + by rewrite Hc'', Hcalls.
    + by rewrite Hh''.
Qed.

(** C1 at work: the third request at a queue of capacity two. *)
Lemma process_input_admission_witness :
  let s := Demo.run_from Demo.small Demo.two_queued in
  let r := fst (process_input Demo.small 12%nat s) in
  let s' := snd (process_input Demo.small 12%nat s) in
  Z.of_nat (length (queue s')) ≤ max_queue_size Demo.small ∧
  (pc s ≠ NotStarted →
   (r = Raise (HandlingError "I'm too busy" 503) ↔
      max_queue_size Demo.small ≤ Z.of_nat (length (queue s))) ∧
   (max_queue_size Demo.small ≤ Z.of_nat (length (queue s)) →
      queue s' = queue s) ∧
   (Z.of_nat (length (queue s)) < max_queue_size Demo.small →
      r = Ok (length (heap s)) ∧ queue s' = queue s ++ [length (heap s)]) ∧
   queue_lock s = Some false ∧ queue_lock s' = Some false ∧
   ∃ r1 s2,
     process_input_locked Demo.small (length (heap s))
       (set_queue_lock (Some true) (with_task 12%nat s)) = (r1, s2) ∧
     queue_lock s2 = Some true ∧
     s' = set_queue_lock (Some false) s2 ∧
     r = match r1 with
         | Ok _ => Ok (length (heap s))
         | Raise e => Raise e
         | Suspend => Suspend
         end ∧
     new_task (mkTask false 0 12%nat (now s) None) s =
       (Ok (length (heap s)), with_task 12%nat s) ∧
     lock_acquire (with_task 12%nat s) =
       (Ok (), set_queue_lock (Some true) (with_task 12%nat s)) ∧
     lock_release s2 = (Ok (), s') ∧
     with_lock (process_input_locked Demo.small (length (heap s)))
       (with_task 12%nat s) = (r1, s')).
Proof.
  apply (process_input_admission Demo.small
           (Demo.run_from Demo.small Demo.two_queued) 12%nat).
  - by vm_compute.
  - apply reachable_run_from. by vm_compute.
Defined.

(** C3 at work: the same rejected request. *)
Lemma rejected_request_changes_nothing_witness :
  let s := Demo.run_from Demo.small Demo.two_queued in
  ∃ s',
    process_input Demo.small 12%nat s =
      (Raise (HandlingError "I'm too busy" 503), s') ∧
    queue s' = queue s ∧
    needs_processing s' = needs_processing s ∧
    needs_processing_timer s' = needs_processing_timer s ∧
    timers s' = timers s ∧
    queue_lock s' = queue_lock s ∧
    now s' = now s ∧ pc s' = pc s ∧ dispatched s' = dispatched s ∧
    heap s' = heap s ++ [mkTask false 0 12%nat (now s) None] ∧
    length (heap s) ∉ concat (dispatched s') ++ queue s' ++ in_flight s'.
Proof.
  apply (rejected_request_changes_nothing Demo.small
           (Demo.run_from Demo.small Demo.two_queued) 12%nat).
  - apply reachable_run_from. by vm_compute.
  - by vm_compute.
  - by vm_compute.
Defined.

(** C4 at work: three requests, one tick apart, at an idle runner with
    batches of three. *)
Lemma full_batch_is_ready_at_once_witness :
  let s := Demo.run_from Demo.three [EStart] in
  (∀ s0 : Demo.st,
     is_Some (needs_processing s0) →
     max_batch_size Demo.three ≤ Z.of_nat (length (queue s0)) →
     schedule_processing_if_needed Demo.three s0 =
       (Ok (), set_needs_processing (Some true) s0)) ∧
  ∃ s1 s2,
    exec Demo.three Demo.arrivals s = Some s1 ∧
    needs_processing s1 = Some true ∧
    queue s1 = seq (length (heap s)) (length (submitted Demo.arrivals)) ∧
    step Demo.three EWake s1 = Some s2 ∧
    pc s2 = Executing (queue s1) (submitted Demo.arrivals) ∧
    queue s2 = [] ∧ now s2 = now s1.
Proof.
  apply (full_batch_is_ready_at_once Demo.three
           (Demo.run_from Demo.three [EStart]) Demo.arrivals);
    try by vm_compute.
  apply reachable_run_from. by vm_compute.
Defined.

(** C5 at work: three queued tasks and batches of two. *)
Lemma dispatch_takes_oldest_witness :
  let s := Demo.run_from Demo.pair Demo.full_batch in
  ∃ s',
    step Demo.pair EWake s = Some s' ∧
    pc s' = Executing [0; 1]%nat [10; 11]%nat ∧
    queue s = [0; 1; 2]%nat ∧ queue s' = [2]%nat ∧
    dispatched s' = [[0; 1]%nat] ∧
    timers s' = [mkTimer 50 true true; mkTimer 52 false true].
Proof.
  destruct (dispatch_takes_oldest Demo.pair
              (Demo.run_from Demo.pair Demo.full_batch))
    as (s' & Hstep & _); try by vm_compute.
  - apply reachable_run_from. by vm_compute.
  - exists s'. split; [exact Hstep|].
    vm_compute in Hstep. injection Hstep as <-. by vm_compute.
Defined.

(** C9 at work: two batches, [[0; 1]] and [[2]]. *)
Lemma no_task_dispatched_twice_witness :
  let s := Demo.run_from Demo.pair Demo.two_batches in
  dispatched s = [[0; 1]; [2]]%nat ∧
  NoDup (concat (dispatched s) ++ queue s) ∧
  (∀ i j b1 b2 t,
     dispatched s !! i = Some b1 → dispatched s !! j = Some b2 →
     t ∈ b1 → t ∈ b2 → i = j) ∧
  (∀ b, b ∈ dispatched s → NoDup b) ∧
  (∀ b t, b ∈ dispatched s → t ∈ b → t ∉ queue s).
Proof.
  split; [by vm_compute|].
  apply (no_task_dispatched_twice Demo.pair
           (Demo.run_from Demo.pair Demo.two_batches)).
  apply reachable_run_from. by vm_compute.
Defined.

(** C6 at work: the echo service on the batch [[10; 11; 12]]. *)
Lemma outputs_follow_batch_order_witness :
  let s := Demo.run_from Demo.three Demo.executing in
  ∃ s',
    step Demo.three (EFinish Demo.echo) s = Some s' ∧ pc s' = Waiting ∧
    process_input_return 0 s' = Some (VOut 10%nat) ∧
    process_input_return 1 s' = Some (VOut 11%nat) ∧
    process_input_return 2 s' = Some (VOut 12%nat).
Proof.
  destruct (outputs_follow_batch_order Demo.three
              (Demo.run_from Demo.three Demo.executing)
              [0; 1; 2]%nat [10; 11; 12]%nat Demo.echo [10; 11; 12]%nat)
    as (s' & Hstep & _); try by vm_compute.
  - apply reachable_run_from. by vm_compute.
  - exists s'. split; [exact Hstep|].
    vm_compute in Hstep. injection Hstep as <-. by vm_compute.
Defined.

(** C7 at work: the failing service on the same batch. *)
Lemma worker_failure_reaches_whole_batch_witness :
  let s := Demo.run_from Demo.three Demo.executing in
  ∃ s',
    step Demo.three (EFinish Demo.failing) s = Some s' ∧ pc s' = Waiting ∧
    process_input_return 0 s' = Some (VExc 7%nat) ∧
    process_input_return 1 s' = Some (VExc 7%nat) ∧
    process_input_return 2 s' = Some (VExc 7%nat).
Proof.
  destruct (worker_failure_reaches_whole_batch Demo.three
              (Demo.run_from Demo.three Demo.executing)
              [0; 1; 2]%nat [10; 11; 12]%nat Demo.failing 7%nat)
    as (s' & Hstep & _); try by vm_compute.
  - apply reachable_run_from. by vm_compute.
  - exists s'. split; [exact Hstep|].
    vm_compute in Hstep. injection Hstep as <-. by vm_compute.
Defined.

(** C8 at work: the service that answers with one output too few. *)
Lemma delivery_follows_zip_witness :
  let s := Demo.run_from Demo.three Demo.executing in
  ∃ s',
    step Demo.three (EFinish Demo.drop_last) s = Some s' ∧ pc s' = Waiting ∧
    process_input_return 0 s' = Some (VOut 10%nat) ∧
    process_input_return 1 s' = Some (VOut 11%nat) ∧
    process_input_return 2 s' = None.
Proof.
  destruct (delivery_follows_zip Demo.three
              (Demo.run_from Demo.three Demo.executing)
              [0; 1; 2]%nat [10; 11; 12]%nat Demo.drop_last)
    as (s' & Hstep & _); try by vm_compute.
  - apply reachable_run_from. by vm_compute.
  - exists s'. split; [exact Hstep|].
    vm_compute in Hstep. injection Hstep as <-. by vm_compute.
Defined.

(** * More of the runner: order, time, wake-ups, routes, command line *)

Section Coverage.

Context {Input Output Exn : Type}.
Variable cfg : Config.

Local Abbreviation State := (State Input Output Exn).
Local Abbreviation Task := (Task Input Output Exn).
Local Abbreviation event := (event Input Output Exn).

Implicit Types (s : State) (o : Task) (q tp : list nat) (t : nat).

(** *** How one step changes the store, the clock and the admitted tasks *)

Lemma delivered_lookup_inv pairs (h : list Task) t o' :
  delivered pairs h !! t = Some o' →
  ∃ o, h !! t = Some o ∧ time o' = time o ∧ input o' = input o.
Proof.
  revert h. induction pairs as [|[t' r] rest IH]; intros h Ho'; simpl in Ho'.
  - by exists o'.
  - destruct (IH _ Ho') as (o1 & Ho1 & Ht & Hi).
    rewrite list_lookup_alter in Ho1. case_decide.
    + subst t'. destruct (h !! t) as [o|]; simplify_eq/=.
      exists o. by rewrite Ht, Hi.
    + by exists o1.
Qed.

Lemma step_heap e s s' t o' :
  Inv s → step cfg e s = Some s' → heap s' !! t = Some o' →
  (∃ o, heap s !! t = Some o ∧ time o' = time o ∧ input o' = input o) ∨
  (t = length (heap s) ∧ o' = mkTask false 0 (input o') (now s) None ∧
   e = ESubmit (input o')).
Proof.
  intros I Hstep Ho'. pose proof (step_spec cfg e s s' I Hstep) as Hs.
  assert (∀ i, (heap s ++ [mkTask false 0 i (now s) None]) !! t = Some o' →
    (∃ o, heap s !! t = Some o ∧ time o' = time o ∧ input o' = input o) ∨
    (t = length (heap s) ∧ o' = mkTask false 0 (input o') (now s) None ∧
     ESubmit i = ESubmit (input o' : Input) :> event)) as Happ.
  { intros i Hl. apply lookup_app_Some in Hl as [Hl|[Hge Hl]]; [by eauto|].
    right. apply list_lookup_singleton_Some in Hl as [Hz <-]. simpl.
    split; [lia|done]. }
  destruct e as [|i|d|h| |parse].
  - destruct Hs as [_ ->]. by eauto.
  - destruct Hs as [[-> _]|(-> & Hpc & _)].
    + by apply Happ.
    + destruct (Inv_started s I Hpc) as [_ Hn].
      destruct (admitted_fields cfg i s Hn) as (_ & _ & _ & _ & F5 & _).
      rewrite F5 in Ho'. by apply Happ.
  - destruct Hs as [_ ->]. by eauto.
  - destruct Hs as (tm & _ & _ & _ & _ & ->). by eauto.
  - destruct Hs as (Hpc & Hn & ->).
    destruct (handed_over_fields cfg s) as (_ & _ & _ & _ & F5 & _);
      [by eauto|].
    cbn [heap set_dispatched set_pc] in Ho'. rewrite F5 in Ho'. by eauto.
  - destruct Hs as (tp & batch & Hpc & ->). simpl in Ho'. left.
    by eapply delivered_lookup_inv.
Qed.

Lemma step_now e s s' :
  Inv s → step cfg e s = Some s' → now s ≤ now s'.
Proof.
  intros I Hstep. pose proof (step_spec cfg e s s' I Hstep) as Hs.
  destruct e as [|i|d|h| |parse].
  - by destruct Hs as [_ ->].
  - destruct Hs as [[-> _]|(-> & Hpc & _)]; [done|].
    destruct (Inv_started s I Hpc) as [_ Hn].
    destruct (admitted_fields cfg i s Hn) as (_ & _ & _ & _ & _ & -> & _).
    done.
  - destruct Hs as [Hd ->]. simpl. lia.
  - by destruct Hs as (tm & _ & _ & _ & _ & ->).
  - destruct Hs as (Hpc & Hn & ->).
    destruct (handed_over_fields cfg s) as (_ & _ & _ & _ & _ & F6 & _);
      [by eauto|].
    cbn [now set_dispatched set_pc]. by rewrite F6.
  - by destruct Hs as (tp & batch & Hpc & ->).
Qed.

Lemma step_admitted_tasks e s s' :
  Inv s → step cfg e s = Some s' →
  admitted_tasks s' = admitted_tasks s ∨
  (∃ i, e = ESubmit i) ∧
  admitted_tasks s' = admitted_tasks s ++ [length (heap s)].
Proof.
  intros I Hstep. pose proof (step_spec cfg e s s' I Hstep) as Hs.
  unfold admitted_tasks. destruct e as [|i|d|h| |parse].
  - destruct Hs as [_ ->]. by left.
  - destruct Hs as [[-> _]|(-> & Hpc & _)]; [by left|]. right.
    destruct (Inv_started s I Hpc) as [_ Hn].
    destruct (admitted_fields cfg i s Hn) as (_ & _ & -> & -> & _).
    split; [by eauto|]. by rewrite app_assoc.
  - destruct Hs as [_ ->]. by left.
  - destruct Hs as (tm & _ & _ & _ & _ & ->). by left.
  - destruct Hs as (Hpc & Hn & ->). left.
    destruct (handed_over_fields cfg s) as (_ & _ & F3 & _); [by eauto|].
    cbn [dispatched queue set_dispatched set_pc]. rewrite F3.
    rewrite concat_app. simpl. rewrite app_nil_r, <- app_assoc.
    by rewrite py_slice_to_split.
  - destruct Hs as (tp & batch & Hpc & ->). by left.
Qed.

(** *** Order of creation, order of dispatch *)

Lemma step_timestamps e s s' :
  Inv s → timestamps_ordered s → step cfg e s = Some s' →
  timestamps_ordered s'.
Proof.
  intros I HP Hstep a b oa' ob' Hab Ha Hb.
  pose proof (step_now e s s' I Hstep) as Hnow.
  destruct (step_heap e s s' b ob' I Hstep Hb)
    as [(ob & Hob & -> & _)|(-> & Eb & _)].
  - destruct (step_heap e s s' a oa' I Hstep Ha)
      as [(oa & Hoa & -> & _)|(-> & _ & _)].
    + destruct (HP a b oa ob Hab Hoa Hob). lia.
    + apply lookup_lt_Some in Hob. lia.
  - rewrite Eb. simpl.
    destruct (step_heap e s s' a oa' I Hstep Ha)
      as [(oa & Hoa & -> & _)|(-> & Ea & _)].
    + destruct (HP a a oa oa (le_n _) Hoa Hoa). lia.
    + rewrite Ea. simpl. lia.
Qed.

Lemma reachable_timestamps s : reachable cfg s → timestamps_ordered s.
Proof.
  intros [es Hes].
  apply (exec_ind cfg timestamps_ordered) in Hes as [_ HP];
    [done| |apply Inv_init|].
  - intros e s0 s1 I0 HP0 Hstep. by eapply step_timestamps.
  - intros a b oa ob _ Ha. simpl in Ha. by rewrite lookup_nil in Ha.
Qed.

Lemma concat_lookup_lt {A} (L : list (list A)) m n b1 b2 i1 i2 (x1 x2 : A) :
  L !! m = Some b1 → L !! n = Some b2 → (m < n)%nat →
  b1 !! i1 = Some x1 → b2 !! i2 = Some x2 →
  ∃ k1 k2, (k1 < k2)%nat ∧
    concat L !! k1 = Some x1 ∧ concat L !! k2 = Some x2.
Proof.
  revert m n. induction L as [|b L IH]; intros m n Hm Hn Hmn H1 H2; [done|].
  destruct n as [|n]; [lia|]. simpl in Hn.
  destruct m as [|m]; simpl in Hm.
  - simplify_eq. apply list_elem_of_lookup_2 in Hn as Hin.
    assert (x2 ∈ concat L) as Hx2.
    { eapply elem_of_concat; [exact Hin|by eapply list_elem_of_lookup_2]. }
    apply list_elem_of_lookup in Hx2 as [k Hk].
    exists i1, (length b1 + k)%nat. apply lookup_lt_Some in H1 as Hlt.
    split; [lia|]. simpl. split; [by apply lookup_app_l_Some|].
    by rewrite lookup_app_r, Nat.add_comm, Nat.add_sub by lia.
  - destruct (IH m n Hm Hn ltac:(lia) H1 H2) as (k1 & k2 & Hk & Hk1 & Hk2).
    exists (length b + k1)%nat, (length b + k2)%nat.
    split; [lia|]. simpl.
    split; by rewrite lookup_app_r, Nat.add_comm, Nat.add_sub by lia.
Qed.

Lemma increasing_snoc (l : list nat) n :
  increasing l → Forall (λ x, (x < n)%nat) l → increasing (l ++ [n]).
Proof.
  intros Hinc Hlt i j x y Hij Hi Hj.
  apply lookup_app_Some in Hj as [Hj|[Hge Hj]].
  - apply lookup_lt_Some in Hj as Hjl.
    rewrite lookup_app_l in Hi by lia. by apply (Hinc i j).
  - apply list_lookup_singleton_Some in Hj as [Hzj <-].
    apply lookup_app_Some in Hi as [Hi|[Hge' Hi]].
    + rewrite Forall_forall in Hlt. apply Hlt.
      by eapply list_elem_of_lookup_2.
    + lia.
Qed.

Lemma dispatch_in_creation_order_aux s :
  reachable cfg s → increasing (admitted_tasks s).
Proof.
  intros [es Hes].
  apply (exec_ind cfg (λ s, increasing (admitted_tasks s))) in Hes as [_ HP];
    [done| |apply Inv_init|].
  - intros e s0 s1 I0 HP0 Hstep.
    destruct (step_admitted_tasks e s0 s1 I0 Hstep) as [->|[_ ->]]; [done|].
    apply increasing_snoc; [done|]. apply (inv_valid s0 I0).
  - intros i j x y _ Hi. unfold admitted_tasks in Hi. simpl in Hi.
    by rewrite lookup_nil in Hi.
Qed.

(** X7.  The batches sliced off so far, followed by the queue, list the
    admitted tasks in strictly increasing order of creation: tasks leave
    the queue in the order in which their [process_input] calls ran, across
    batches as well as inside each batch. *)
Theorem dispatch_in_creation_order s :
  reachable cfg s →
  increasing (admitted_tasks s) ∧
  ∀ m n b1 b2 t1 t2,
    dispatched s !! m = Some b1 → dispatched s !! n = Some b2 →
    (m < n)%nat → t1 ∈ b1 → t2 ∈ b2 → (t1 < t2)%nat.
Proof.
  intros Hreach. pose proof (dispatch_in_creation_order_aux s Hreach) as Hinc.
  split; [done|].
  intros m n b1 b2 t1 t2 Hm Hn Hmn H1 H2.
  apply list_elem_of_lookup in H1 as [i1 Hi1].
  apply list_elem_of_lookup in H2 as [i2 Hi2].
  destruct (concat_lookup_lt (dispatched s) m n b1 b2 i1 i2 t1 t2)
    as (k1 & k2 & Hk & Hk1 & Hk2); try done.
  apply (Hinc k1 k2); [done|..]; unfold admitted_tasks;
    by apply lookup_app_l_Some.
Qed.

Lemma exec_Inv_from es s s' : Inv s → exec cfg es s = Some s' → Inv s'.
Proof.
  intros I Hex.
  by destruct (exec_ind cfg (λ _, True) (λ _ _ _ _ _ _, Logic.I) es s s' I
                 Logic.I Hex).
Qed.

(** X8.  No admitted task is ever dropped or reordered: whatever happens
    next, the tasks admitted so far stay, in the same order, at the front of
    "dispatched batches, then queue"; later events only add newly admitted
    tasks behind them. *)
Theorem admitted_tasks_never_lost es s s' :
  reachable cfg s → exec cfg es s = Some s' →
  admitted_tasks s `prefix_of` admitted_tasks s'.
Proof.
  intros Hreach. pose proof (reachable_inv cfg s Hreach) as I. clear Hreach.
  revert s I. induction es as [|e es IH]; intros s I Hex; simpl in Hex.
  - by simplify_eq.
  - destruct (step cfg e s) as [s1|] eqn:Hstep; [|done].
    pose proof (step_Inv cfg e s s1 I Hstep) as I1.
    etrans; [|by apply (IH s1)].
    destruct (step_admitted_tasks e s s1 I Hstep) as [->|[_ ->]]; [done|].
    by apply prefix_app_r.
Qed.

Lemma queue_refs_ordered s i j ti tj :
  reachable cfg s → (i ≤ j)%nat →
  queue s !! i = Some ti → queue s !! j = Some tj → (ti ≤ tj)%nat.
Proof.
  intros Hreach Hij Hi Hj.
  destruct (decide (i = j)) as [->|Hne]; [by simplify_eq|].
  apply Nat.lt_le_incl.
  apply (dispatch_in_creation_order_aux s Hreach
           (length (concat (dispatched s)) + i)%nat
           (length (concat (dispatched s)) + j)%nat); [lia|..];
    unfold admitted_tasks; by rewrite lookup_app_r, Nat.add_comm,
      Nat.add_sub by lia.
Qed.

(** X3.  The queue is ordered by enqueue time: a task further back was
    stamped no earlier than one further in front, and no stamp is ahead of
    the loop's clock.  So [queue[0]] is the task that has waited longest,
    which is what lines 52 and 91 take it to be. *)
Theorem queue_is_oldest_first s i j ti tj oi oj :
  reachable cfg s → (i ≤ j)%nat →
  queue s !! i = Some ti → queue s !! j = Some tj →
  heap s !! ti = Some oi → heap s !! tj = Some oj →
  time oi ≤ time oj ∧ time oj ≤ now s.
Proof.
  intros Hreach Hij Hi Hj Hoi Hoj.
  apply (reachable_timestamps s Hreach ti tj); [|done..].
  by eapply queue_refs_ordered.
Qed.

(** X4.  [longest_wait] deserves its name: it is [None] exactly when the
    queue is empty (the "oops" branch), and otherwise it is non-negative
    and at least as long as the wait of every queued task. *)
Theorem longest_wait_is_longest s :
  reachable cfg s →
  ∃ w,
    model_runner_longest_wait s = (Ok w, s) ∧
    (w = None ↔ queue s = []) ∧
    ∀ x, w = Some x →
      0 ≤ x ∧
      ∀ t o, t ∈ queue s → heap s !! t = Some o →
        0 ≤ now s - time o ∧ now s - time o ≤ x.
Proof.
  intros Hreach. pose proof (reachable_inv cfg s Hreach) as I.
  pose proof (reachable_timestamps s Hreach) as Hts.
  unfold model_runner_longest_wait, loop_time, task_get, bind, gets, ret.
  destruct (queue s) as [|t0 q0] eqn:Hq.
  - exists None. split; [done|]. split; [done|]. by intros x.
  - assert (t0 < length (heap s))%nat as Hlt.
    { apply (Inv_ref_valid s t0 I). rewrite Hq. apply elem_of_app. left. left. }
    destruct (lookup_lt_is_Some_2 _ _ Hlt) as [o0 Ho0]. rewrite Ho0.
    exists (Some (now s - time o0)). split; [done|]. split; [done|].
    intros x [= <-].
    destruct (Hts t0 t0 o0 o0 (le_n _) Ho0 Ho0) as [_ H0].
    split; [lia|]. intros t o Ht Ho.
    apply list_elem_of_lookup in Ht as [j Hj].
    assert (t0 ≤ t)%nat as Hle.
    { apply (queue_refs_ordered s 0 j t0 t Hreach); [lia|by rewrite Hq|
        by rewrite Hq]. }
    destruct (Hts t0 t o0 o Hle Ho0 Ho). lia.
Qed.

(** *** Answered tasks *)

Lemma step_dispatched e s s' :
  Inv s → step cfg e s = Some s' →
  ∀ t, t ∈ concat (dispatched s) → t ∈ concat (dispatched s').
Proof.
  intros I Hstep t Ht. pose proof (step_spec cfg e s s' I Hstep) as Hs.
  destruct e as [|i|d|h| |parse].
  - by destruct Hs as [_ ->].
  - destruct Hs as [[-> _]|(-> & Hpc & _)]; [done|].
    destruct (Inv_started s I Hpc) as [_ Hn].
    by destruct (admitted_fields cfg i s Hn) as (_ & _ & _ & -> & _).
  - by destruct Hs as [_ ->].
  - by destruct Hs as (tm & _ & _ & _ & _ & ->).
  - destruct Hs as (Hpc & Hn & ->). cbn [dispatched set_dispatched].
    rewrite concat_app. apply elem_of_app. by left.
  - by destruct Hs as (tp & batch & Hpc & ->).
Qed.

Lemma step_heap_done e s s' t o' :
  Inv s → step cfg e s = Some s' →
  heap s' !! t = Some o' → done_event o' = true →
  heap s !! t = Some o' ∨ t ∈ in_flight s.
Proof.
  intros I Hstep Ho' Hdone. pose proof (step_spec cfg e s s' I Hstep) as Hs.
  assert (∀ i, (heap s ++ [mkTask false 0 i (now s) None]) !! t = Some o' →
               heap s !! t = Some o') as Happ.
  { intros i Hl. apply lookup_app_Some in Hl as [Hl|[Hge Hl]]; [done|].
    apply list_lookup_singleton_Some in Hl as [_ <-]. done. }
  destruct e as [|i|d|h| |parse].
  - destruct Hs as [_ ->]. by left.
  - destruct Hs as [[-> _]|(-> & Hpc & _)]; left.
    + by apply (Happ i).
    + destruct (Inv_started s I Hpc) as [_ Hn].
      destruct (admitted_fields cfg i s Hn) as (_ & _ & _ & _ & F5 & _).
      rewrite F5 in Ho'. by apply (Happ i).
  - destruct Hs as [_ ->]. by left.
  - destruct Hs as (tm & _ & _ & _ & _ & ->). by left.
  - destruct Hs as (Hpc & Hn & ->). left.
    destruct (handed_over_fields cfg s) as (_ & _ & _ & _ & F5 & _);
      [by eauto|].
    cbn [heap set_dispatched set_pc] in Ho'. by rewrite F5 in Ho'.
  - destruct Hs as (tp & batch & Hpc & ->). simpl in Ho'.
    unfold in_flight. rewrite Hpc.
    destruct (decide (t ∈ (zip tp (run_model parse batch)).*1)) as [Hin|Hnot].
    + right. rewrite fst_zip_take in Hin.
      apply elem_of_take in Hin as (j & Hj & _).
      by eapply list_elem_of_lookup_2.
    + left. by rewrite delivered_notin in Ho'.
Qed.

Lemma reachable_done_dispatched s t o :
  reachable cfg s → heap s !! t = Some o → done_event o = true →
  t ∈ concat (dispatched s).
Proof.
  intros [es Hes]. revert t o.
  apply (exec_ind cfg (λ s, ∀ t o, heap s !! t = Some o →
           done_event o = true → t ∈ concat (dispatched s)))
    in Hes as [_ HP]; [done| |apply Inv_init|].
  - intros e s0 s1 I0 HP0 Hstep t o Ho Hdone.
    destruct (step_heap_done e s0 s1 t o I0 Hstep Ho Hdone) as [Hold|Hfl].
    + eapply step_dispatched; [done..|]. by eapply HP0.
    + eapply step_dispatched; [done..|]. by apply in_flight_dispatched.
  - intros t o Ho. simpl in Ho. by rewrite lookup_nil in Ho.
Qed.

(** X2.  Whenever a task's [done_event] is set, its ["output"] is there
    (line 67 cannot raise [KeyError]), the event was set exactly once, and
    the task belongs to a batch that was sliced off and delivered: it is
    neither queued nor in the batch the worker is running. *)
Theorem answered_task_was_delivered s t o :
  reachable cfg s → heap s !! t = Some o → done_event o = true →
  is_Some (output o) ∧ done_sets o = 1%nat ∧
  process_input_return t s = output o ∧
  t ∈ concat (dispatched s) ∧ t ∉ queue s ++ in_flight s.
Proof.
  intros Hreach Ho Hdone. pose proof (reachable_inv cfg s Hreach) as I.
  pose proof (inv_heap s I) as Hh. rewrite Forall_lookup in Hh.
  destruct (Hh t o Ho) as [(Hf & _)|(_ & Hs & Hout)]; [congruence|].
  split; [done|]. split; [done|]. split.
  { unfold process_input_return. by rewrite Ho, Hdone. }
  split; [by eapply reachable_done_dispatched|].
  intros Hin. destruct (inv_pending s I t o Hin Ho) as (Hf & _). congruence.
Qed.

Lemma step_keeps_unadmitted e s s' t :
  Inv s → step cfg e s = Some s' →
  (t < length (heap s))%nat → t ∉ admitted_tasks s →
  heap s' !! t = heap s !! t ∧ (t < length (heap s'))%nat ∧
  t ∉ admitted_tasks s'.
Proof.
  intros I Hstep Hlt Hun.
  assert (t ∉ queue s ++ in_flight s) as Hun'.
  { intros Hin. apply Hun. unfold admitted_tasks.
    apply elem_of_app in Hin as [Hin|Hin]; apply elem_of_app; [by right|left].
    by apply in_flight_dispatched. }
  destruct (step_keeps_untracked cfg e s s' t I Hstep Hlt Hun') as (E & Hlt' & _).
  split; [done|]. split; [done|].
  destruct (step_admitted_tasks e s s' I Hstep) as [->|[_ ->]]; [done|].
  intros Hin. apply elem_of_app in Hin as [Hin|Hin]; [done|].
  apply list_elem_of_singleton in Hin. lia.
Qed.

Lemma exec_keeps_unadmitted es s s' t :
  Inv s → exec cfg es s = Some s' →
  (t < length (heap s))%nat → t ∉ admitted_tasks s →
  heap s' !! t = heap s !! t ∧ t ∉ admitted_tasks s'.
Proof.
  revert s. induction es as [|e es IH]; intros s I Hex Hlt Hun; simpl in Hex.
  - by simplify_eq.
  - destruct (step cfg e s) as [s1|] eqn:Hs; [|done].
    destruct (step_keeps_unadmitted e s s1 t I Hs Hlt Hun) as (E & Hlt1 & Hun1).
    rewrite <- E. apply IH; [by eapply step_Inv|done..].
Qed.

(** X1.  A request that runs before [model_runner] has created the lock
    fails with [AttributeError] at [async with self.queue_lock]: its task is
    not queued, and whatever happens later it is never admitted and never
    answered. *)
Theorem request_before_start_fails s i :
  reachable cfg s → pc s = NotStarted →
  process_input cfg i s = (Raise AttributeError, with_task i s) ∧
  queue (with_task i s) = [] ∧
  ∀ es s', exec cfg es (with_task i s) = Some s' →
    (length (heap s) ∉ admitted_tasks s') ∧
    process_input_return (length (heap s)) s' = None.
Proof.
  intros Hreach Hpc. pose proof (reachable_inv cfg s Hreach) as I.
  pose proof (inv_started s I) as Hst. rewrite Hpc in Hst.
  destruct Hst as (Hl & _ & Hq & Hd).
  split; [by apply process_input_unstarted|]. split; [done|].
  intros es s' Hex.
  pose proof (Inv_with_task i s I) as I1.
  assert (length (heap s) ∉ admitted_tasks (with_task i s)) as Hun.
  { unfold admitted_tasks. simpl. rewrite Hq, Hd. by apply not_elem_of_nil. }
  assert (length (heap s) < length (heap (with_task i s)))%nat as Hlt.
  { simpl. rewrite length_app. simpl. lia. }
  destruct (exec_keeps_unadmitted es _ s' _ I1 Hex Hlt Hun) as [Hsame Hun'].
  split; [done|].
  simpl in Hsame. rewrite lookup_app_r, Nat.sub_diag in Hsame by done.
  unfold process_input_return. by rewrite Hsame.
Qed.

(** *** Wake-ups *)

Lemma scheduled_wakeup (x : State) t q' o :
  queue x = t :: q' → heap x !! t = Some o →
  wakeup_pending cfg (scheduled_state cfg x) o.
Proof.
  intros Hq Ho. unfold wakeup_pending, scheduled_state.
  destruct (_ >=? _); [by left|]. rewrite Hq, Ho. right.
  exists (length (timers x)). simpl. split; [done|].
  by rewrite lookup_app_r, Nat.sub_diag.
Qed.

Lemma step_wakeup e s s' :
  Inv s →
  (∀ t q' o, queue s = t :: q' → heap s !! t = Some o →
             wakeup_pending cfg s o) →
  step cfg e s = Some s' →
  ∀ t q' o, queue s' = t :: q' → heap s' !! t = Some o →
            wakeup_pending cfg s' o.
Proof.
  intros I HP Hstep t q' o Hq Ho.
  pose proof (step_spec cfg e s s' I Hstep) as Hs.
  destruct e as [|i|d|h| |parse].
  - destruct Hs as [Hpc ->]. pose proof (inv_started s I) as Hst.
    rewrite Hpc in Hst. destruct Hst as (_ & _ & Hq0 & _).
    simpl in Hq. congruence.
  - destruct Hs as [[-> _]|(-> & Hpc & _)].
    + simpl in Hq, Ho.
      assert (t < length (heap s))%nat as Hlt.
      { apply (Inv_ref_valid s t I). rewrite Hq. apply elem_of_app. left. left. }
      rewrite lookup_app_l in Ho by done.
      by apply (HP t q' o).
    + unfold admitted_state in *.
      match type of Hq with context [scheduled_state _ ?X] =>
        destruct (Inv_started s I Hpc) as [_ Hn];
        destruct (scheduled_same_core cfg X) as (_ & _ & E3 & _ & E5 & _);
          [done|];
        pose proof (scheduled_wakeup X t q' o) as Hw
      end.
      cbn [queue heap set_queue_lock] in Hq, Ho. rewrite E3 in Hq.
      rewrite E5 in Ho. specialize (Hw Hq Ho).
      destruct Hw as [Hw|Hw]; [by left|by right].
  - destruct Hs as [_ ->]. by apply (HP t q' o).
  - destruct Hs as (tm & _ & _ & _ & _ & ->). by left.
  - destruct Hs as (Hpc & Hn & ->).
    unfold handed_over_state in *.
    destruct (cleared_same_core s) as (_ & _ & _ & _ & _ & _ & C7);
      [by eauto|].
    destruct (scheduled_same_core cfg (sliced_state cfg s))
      as (_ & _ & E3 & _ & E5 & _).
    { unfold sliced_state. simpl. apply C7. by eauto. }
    pose proof (scheduled_wakeup (sliced_state cfg s) t q' o) as Hw.
    cbn [queue heap set_queue_lock set_dispatched set_pc] in Hq, Ho.
    rewrite E3 in Hq. rewrite E5 in Ho. specialize (Hw Hq Ho).
    destruct Hw as [Hw|Hw]; [by left|by right].
  - destruct Hs as (tp & batch & Hpc & ->). simpl in Hq, Ho.
    assert (t ∈ queue s) as Hin by (rewrite Hq; left).
    pose proof (Inv_queue_not_in_flight s t I Hin) as Hnf.
    unfold in_flight in Hnf. rewrite Hpc in Hnf.
    rewrite delivered_notin in Ho.
    + by apply (HP t q' o).
    + rewrite fst_zip_take. intros Hz. apply Hnf.
      apply elem_of_take in Hz as (j & Hj & _). by eapply list_elem_of_lookup_2.
Qed.

Lemma reachable_wakeup s t q' o :
  reachable cfg s → queue s = t :: q' → heap s !! t = Some o →
  wakeup_pending cfg s o.
Proof.
  intros [es Hes]. revert t q' o.
  apply (exec_ind cfg (λ s, ∀ t q' o, queue s = t :: q' →
           heap s !! t = Some o → wakeup_pending cfg s o))
    in Hes as [_ HP]; [done| |apply Inv_init|done].
  intros e s0 s1 I0 HP0 Hstep. by eapply step_wakeup.
Qed.

(** X5.  A queued task is never left without something that will wake the
    dispatcher: while the queue is not empty, either [needs_processing] is
    set, or the handle stored in [needs_processing_timer] is that of a
    timer which is armed (neither cancelled nor run) and due at the oldest
    task's ["time"] plus [max_wait]. *)
Theorem queued_task_has_wakeup s t q' :
  reachable cfg s → queue s = t :: q' →
  ∃ o, heap s !! t = Some o ∧
    (needs_processing s = Some true ∨
     ∃ h tm, needs_processing_timer s = Some h ∧ timers s !! h = Some tm ∧
             outstanding tm = true ∧ when tm = time o + max_wait cfg).
Proof.
  intros Hreach Hq. pose proof (reachable_inv cfg s Hreach) as I.
  assert (t < length (heap s))%nat as Hlt.
  { apply (Inv_ref_valid s t I). rewrite Hq. apply elem_of_app. left. left. }
  destruct (lookup_lt_is_Some_2 _ _ Hlt) as [o Ho]. exists o.
  split; [done|].
  destruct (reachable_wakeup s t q' o Hreach Hq Ho) as [Hw|(h & Hh & Ht)];
    [by left|right].
  by exists h, (mkTimer (time o + max_wait cfg) false true).
Qed.

Lemma py_slice_to_head {A} (k : Z) (x : A) (l : list A) :
  1 ≤ k → ∃ l', py_slice_to k (x :: l) = x :: l'.
Proof.
  intros Hk. rewrite py_slice_to_nonneg by lia.
  destruct (Z.to_nat k `min` length (x :: l))%nat as [|n] eqn:Hn;
    [simpl in Hn; lia|].
  by eexists.
Qed.

(** X6.  Once the oldest queued task has waited [max_wait] and the
    dispatcher is idle, a dispatch that takes this task is enabled: either
    the event is already set and the dispatcher can run at once, or the
    stored timer is due and its callback sets the event first. *)
Theorem overdue_task_can_be_dispatched s t q' o :
  reachable cfg s → pc s = Waiting → 1 ≤ max_batch_size cfg →
  queue s = t :: q' → heap s !! t = Some o →
  time o + max_wait cfg ≤ now s →
  ∃ es s' tp batch,
    (es = [EWake] ∨ ∃ h, es = [EFire h; EWake]) ∧
    exec cfg es s = Some s' ∧ pc s' = Executing (t :: tp) batch.
Proof.
  intros Hreach Hpc Hmb Hq Ho Hdue.
  pose proof (reachable_inv cfg s Hreach) as I.
  destruct (py_slice_to_head (max_batch_size cfg) t q' Hmb) as [tp Htp].
  destruct (reachable_wakeup s t q' o Hreach Hq Ho) as [Hw|(h & Hh & Ht)].
  - exists [EWake]. eexists. exists tp. eexists. split; [by left|].
    cbn [exec]. rewrite (step_wake cfg s I Hpc Hw). split; [done|].
    cbn [pc set_dispatched set_pc]. by rewrite Hq, Htp.
  - destruct (Inv_started s I) as [Hl Hn]; [by rewrite Hpc|].
    set (s1 := set_needs_processing (Some true)
                 (set_timers (alter fire_handle h (timers s)) s)).
    assert (step cfg (EFire h) s = Some s1) as Hfire.
    { simpl. unfold loop_fire. rewrite Ht. simpl.
      destruct (Z.leb_spec (time o + max_wait cfg) (now s)); [|lia].
      by rewrite event_set_spec. }
    pose proof (step_Inv cfg _ _ _ I Hfire) as I1.
    exists [EFire h; EWake]. eexists. exists tp. eexists.
    split; [by eauto|]. cbn [exec]. rewrite Hfire.
    rewrite (step_wake cfg s1 I1 Hpc eq_refl). split; [done|].
    cbn [pc set_dispatched set_pc]. simpl. by rewrite Hq, Htp.
Qed.

(** X9.  Slicing a batch frees capacity at once: after a wake-up with a
    non-empty queue the queue is shorter than before, and the next request
    is admitted, whether or not the worker has finished the batch. *)
Theorem dispatch_frees_capacity s i :
  reachable cfg s → pc s = Waiting → needs_processing s = Some true →
  1 ≤ max_batch_size cfg → 0 ≤ max_queue_size cfg → queue s ≠ [] →
  ∃ s',
    step cfg EWake s = Some s' ∧
    (length (queue s') < length (queue s))%nat ∧
    Z.of_nat (length (queue s')) < max_queue_size cfg ∧
    fst (process_input cfg i s') = Ok (length (heap s')).
Proof.
  intros Hreach Hpc Hn Hmb Hmq Hne.
  pose proof (reachable_inv cfg s Hreach) as I.
  pose proof (step_wake cfg s I Hpc Hn) as Hstep. cbv zeta in Hstep.
  pose proof (reachable_queue_bound cfg s Hmq Hreach) as Hb.
  destruct (handed_over_fields cfg s) as (_ & _ & F3 & _); [by eauto|].
  match type of Hstep with _ = Some ?x => remember x as s' eqn:Es' end.
  assert (queue s' =
    drop (length (py_slice_to (max_batch_size cfg) (queue s))) (queue s))
    as Hq' by (by subst s').
  assert (pc s' ≠ NotStarted) as Hpc' by (by subst s').
  clear Es' F3. exists s'. split; [done|].
  pose proof (step_Inv cfg _ _ _ I Hstep) as I'.
  destruct (Inv_started s' I' Hpc') as [Hl' Hn'].
  assert (Forall (λ t, (t < length (heap s'))%nat) (queue s')) as Hv'.
  { pose proof (inv_valid s' I') as Hv. rewrite Forall_app in Hv. tauto. }
  assert (length (queue s') < length (queue s))%nat as Hshorter.
  { rewrite Hq'. destruct (queue s) as [|t q'] eqn:Hq; [done|].
    destruct (py_slice_to_head (max_batch_size cfg) t q' Hmb) as [tp ->].
    simpl. rewrite length_drop. lia. }
  split; [done|]. split; [lia|].
  rewrite process_input_accept; [done..|lia].
Qed.

(** *** A batch size of zero *)

Lemma py_slice_to_zero {A} (l : list A) : py_slice_to 0 l = [].
Proof. unfold py_slice_to. simpl. by rewrite take_0. Qed.

(** X12.  [__init__] accepts [max_batch_size = 0], and then the runner
    answers nobody: every wake-up slices off the empty batch, leaves the
    queue as it is and sets the event again, so no task is ever dispatched
    and no [done_event] is ever set. *)
Theorem zero_batch_size_answers_nobody s :
  max_batch_size cfg = 0 → reachable cfg s →
  concat (dispatched s) = [] ∧
  (∀ t o, heap s !! t = Some o → done_event o = false) ∧
  (pc s = Waiting → needs_processing s = Some true →
   ∃ s', step cfg EWake s = Some s' ∧ pc s' = Executing [] [] ∧
         queue s' = queue s ∧ needs_processing s' = Some true).
Proof.
  intros Hz Hreach.
  assert (concat (dispatched s) = []) as Hnone.
  { destruct Hreach as [es Hes].
    apply (exec_ind cfg (λ s, concat (dispatched s) = [])) in Hes as [_ HP];
      [done| |apply Inv_init|done].
    intros e s0 s1 I0 HP0 Hstep.
    pose proof (step_spec cfg e s0 s1 I0 Hstep) as Hs.
    destruct e as [|i|d|h| |parse].
    - by destruct Hs as [_ ->].
    - destruct Hs as [[-> _]|(-> & Hpc & _)]; [done|].
      destruct (Inv_started s0 I0 Hpc) as [_ Hn].
      by destruct (admitted_fields cfg i s0 Hn) as (_ & _ & _ & -> & _).
    - by destruct Hs as [_ ->].
    - by destruct Hs as (tm & _ & _ & _ & _ & ->).
    - destruct Hs as (Hpc & Hn & ->). cbn [dispatched set_dispatched].
      rewrite concat_app, HP0, Hz, py_slice_to_zero. done.
    - by destruct Hs as (tp & batch & Hpc & ->). }
  split; [done|]. split.
  - intros t o Ho. destruct (done_event o) eqn:Hdone; [|done].
    pose proof (reachable_done_dispatched s t o Hreach Ho Hdone) as Hin.
    rewrite Hnone in Hin. by apply elem_of_nil in Hin.
  - intros Hpc Hn. pose proof (reachable_inv cfg s Hreach) as I.
    pose proof (step_wake cfg s I Hpc Hn) as Hstep. cbv zeta in Hstep.
    rewrite Hz, py_slice_to_zero in Hstep.
    eexists. split; [exact Hstep|].
    cbn [pc queue needs_processing set_dispatched set_pc].
    split; [done|].
    unfold handed_over_state, scheduled_state, sliced_state. simpl.
    rewrite Hz, py_slice_to_zero. simpl.
    match goal with |- context [?a >=? 0] =>
      destruct (Z.geb_spec a 0) as [_|Hneg]; [|lia] end.
    done.
Qed.

(** *** A single request at an idle runner *)

Lemma step_wake_idle s :
  needs_processing s = Some false → step cfg EWake s = None.
Proof.
  intros Hn. unfold step. destruct (pc s); try done.
  by rewrite model_runner_dispatch_idle.
Qed.

(** X13.  A request that meets an idle runner (nothing queued, event clear,
    no timer armed) with room for batches of two or more arms one timer,
    for its arrival time plus [max_wait], and waits for it: as time passes
    the dispatcher cannot run, and the only callback the loop can run is
    that of this timer.  From the deadline on that callback can run, and
    the dispatch that follows takes exactly this request. *)
Theorem lone_request_waits_for_deadline s i d :
  reachable cfg s → pc s = Waiting → queue s = [] →
  needs_processing s = Some false →
  Forall (λ tm, outstanding tm = false) (timers s) →
  2 ≤ max_batch_size cfg → 1 ≤ max_queue_size cfg → 0 ≤ d →
  ∃ s2,
    exec cfg [ESubmit i; ETick d] s = Some s2 ∧
    queue s2 = [length (heap s)] ∧ now s2 = now s + d ∧
    timers s2 = timers s ++ [mkTimer (now s + max_wait cfg) false true] ∧
    needs_processing_timer s2 = Some (length (timers s)) ∧
    step cfg EWake s2 = None ∧
    (∀ h s3, step cfg (EFire h) s2 = Some s3 → h = length (timers s)) ∧
    (max_wait cfg ≤ d →
     ∃ s3, exec cfg [EFire (length (timers s)); EWake] s2 = Some s3 ∧
           pc s3 = Executing [length (heap s)] [i]).
Proof.
  intros Hreach Hpc Hq Hn Hidle Hmb Hmq Hd.
  pose proof (reachable_inv cfg s Hreach) as I.
  destruct (Inv_started s I) as [Hl _]; [by rewrite Hpc|].
  set (task := mkTask false 0 i (now s) None : Task).
  set (s1 := mkState [length (heap s)] (Some false) (Some false)
               (Some (length (timers s))) (heap s ++ [task])
               (timers s ++ [mkTimer (now s + max_wait cfg) false true])
               (now s) Waiting (dispatched s) (service_calls s) : State).
  assert (admitted_state cfg i s = s1) as Hadm.
  { unfold admitted_state, scheduled_state, arm_timer. simpl. rewrite Hq.
    simpl.
    match goal with |- context [?a >=? ?b] =>
      destruct (Z.geb_spec a b); [lia|] end.
    rewrite lookup_app_r, Nat.sub_diag by done. simpl.
    apply state_eq; simpl; done || congruence. }
  assert (step cfg (ESubmit i) s = Some s1) as Hsub.
  { simpl. rewrite process_input_accept; [by rewrite Hadm|done|by eauto| |].
    - rewrite Hq. constructor.
    - rewrite Hq. simpl. lia. }
  set (s2 := set_now (now s + d) s1).
  assert (step cfg (ETick d) s1 = Some s2) as Htick.
  { simpl. by destruct (Z.leb_spec 0 d); [|lia]. }
  pose proof (step_Inv cfg _ _ _ I Hsub) as I1.
  pose proof (step_Inv cfg _ _ _ I1 Htick) as I2.
  exists s2. split; [cbn [exec]; by rewrite Hsub, Htick|].
  split; [done|]. split; [done|]. split; [done|]. split; [done|].
  split; [|split].
  - by apply step_wake_idle.
  - intros h s3. simpl. unfold loop_fire. simpl.
    destruct ((timers s ++ [mkTimer (now s + max_wait cfg) false true]) !! h)
      as [tm|] eqn:Htm; [|done].
    apply lookup_app_Some in Htm as [Htm|[Hge Htm]].
    + rewrite Forall_lookup in Hidle. by rewrite (Hidle h tm Htm).
    + apply list_lookup_singleton_Some in Htm as [Hh _]. intros _. lia.
  - intros Hlate.
    set (s3 := set_needs_processing (Some true)
                 (set_timers (alter fire_handle (length (timers s)) (timers s2))
                    s2)).
    assert (step cfg (EFire (length (timers s))) s2 = Some s3) as Hfire.
    { simpl. unfold loop_fire. simpl.
      rewrite lookup_app_r, Nat.sub_diag by done. simpl.
      by destruct (Z.leb_spec (now s + max_wait cfg) (now s + d)); [|lia]. }
    pose proof (step_Inv cfg _ _ _ I2 Hfire) as I3.
    eexists. split.
    + cbn [exec]. rewrite Hfire. by rewrite (step_wake cfg s3 I3 eq_refl eq_refl).
    + assert (py_slice_to (max_batch_size cfg) [length (heap s)] =
              [length (heap s)]) as Hsl.
      { rewrite py_slice_to_nonneg by lia. apply take_ge. simpl. lia. }
      cbn [pc set_dispatched set_pc]. simpl. rewrite Hsl.
      unfold inputs_of. simpl.
      by rewrite lookup_app_r, Nat.sub_diag.
Qed.

End Coverage.

(** *** Through the routes *)

Section RouteProperties.

Context {Input Output Exn Dict : Type}.
Variable isinstance_Document : Output → bool.
Variable to_dict : Output → Dict.
Variable cfg : Config.

Local Abbreviation State := (State Input Output Exn).
Local Abbreviation answer := (parse_answer isinstance_Document to_dict).

Implicit Types (s : State) (tp : list nat) (t : nat).

(** X10.  When [service.parse] raises, every caller whose request was in
    the batch gets "Internal Server Error" with code 500 from its route:
    the exception object placed in ["output"] is not a [Document]. *)
Theorem failed_batch_answers_500 s tp batch parse e :
  reachable cfg s → pc s = Executing tp batch → parse batch = inr e →
  ∃ s',
    step cfg (EFinish parse) s = Some s' ∧
    ∀ t, t ∈ tp →
      answer t s = None ∧
      answer t s' = Some (Raise (HandlingError "Internal Server Error" 500)).
Proof.
  intros Hreach Hpc Hparse. pose proof (reachable_inv cfg s Hreach) as I.
  destruct (delivery_per_task cfg s tp batch parse I Hpc)
    as (Hstep & HF & Hin & _).
  eexists. split; [exact Hstep|].
  pose proof (Forall2_length _ _ _ HF) as Hl.
  intros t Ht. apply list_elem_of_lookup in Ht as [i Hi].
  destruct (Hin i t Hi) as (o & Ho & (Hnd & _) & Hnew & _).
  destruct (lookup_lt_is_Some_2 batch i) as [x Hx].
  { apply lookup_lt_Some in Hi. lia. }
  assert (run_model parse batch !! i = Some (VExc e)) as Hres.
  { unfold run_model. by rewrite Hparse, list_lookup_fmap, Hx. }
  rewrite Hres in Hnew.
  unfold parse_answer, process_input_return. rewrite Ho, Hnd, Hnew. done.
Qed.

(** X11.  When [service.parse] returns one output per input, each caller's
    route answers from the output at the position its own request had in
    the batch: the [to_dict()] of that output if it is a [Document], the
    500 error otherwise, independently of the outputs of the other
    requests.  Until delivery the caller waits. *)
Theorem route_answers_from_own_output s tp batch parse outs :
  reachable cfg s → pc s = Executing tp batch →
  parse batch = inl outs → length outs = length batch →
  ∃ s',
    step cfg (EFinish parse) s = Some s' ∧
    ∀ i t, tp !! i = Some t →
      ∃ r, outs !! i = Some r ∧
        answer t s = None ∧
        answer t s' =
          Some (if isinstance_Document r then Ok (to_dict r)
                else Raise (HandlingError "Internal Server Error" 500)).
Proof.
  intros Hreach Hpc Hparse Hlen. pose proof (reachable_inv cfg s Hreach) as I.
  destruct (delivery_per_task cfg s tp batch parse I Hpc)
    as (Hstep & HF & Hin & _).
  eexists. split; [exact Hstep|].
  pose proof (Forall2_length _ _ _ HF) as Hl.
  intros i t Hi.
  destruct (Hin i t Hi) as (o & Ho & (Hnd & _) & Hnew & _).
  destruct (lookup_lt_is_Some_2 outs i) as [r Hr].
  { apply lookup_lt_Some in Hi. lia. }
  assert (run_model parse batch !! i = Some (VOut r)) as Hres.
  { unfold run_model. by rewrite Hparse, list_lookup_fmap, Hr. }
  rewrite Hres in Hnew. exists r. split; [done|].
  unfold parse_answer, process_input_return. rewrite Ho, Hnd, Hnew. done.
Qed.

End RouteProperties.

(** *** The command line *)

Lemma set_parameter_names k v ps ps' :
  Cli.set_parameter k v ps = Some ps' → k ∈ ps.*1 ∧ ps'.*1 = ps.*1.
Proof.
  unfold Cli.set_parameter.
  destruct (existsb _ ps) eqn:Hex; [|done]. intros [= <-]. split.
  - apply existsb_exists in Hex as ([k' v'] & Hin & Heq).
    apply String.eqb_eq in Heq. simpl in Heq. subst k'.
    apply list_elem_of_In in Hin.
    by apply (list_elem_of_fmap_2 fst _ (k, v')).
  - clear Hex. induction ps as [|[k' v'] ps IH]; [done|]. simpl.
    destruct (String.eqb_spec k' k); simpl; subst; f_equal; exact IH.
Qed.

Lemma set_parameter_unknown k v ps :
  Cli.set_parameter k v ps = None → k ∉ ps.*1.
Proof.
  unfold Cli.set_parameter.
  destruct (existsb _ ps) eqn:Hex; [done|]. intros _ Hin.
  apply list_elem_of_fmap in Hin as ([k' v'] & -> & Hin).
  assert (existsb (λ p, (p.1 =? (k', v').1)%string) ps = true); [|congruence].
  apply existsb_exists. exists (k', v').
  split; [by apply list_elem_of_In|]. simpl. apply String.eqb_refl.
Qed.

Lemma bind_keywords_unexpected ps kwargs k :
  Cli.bind_keywords ps kwargs = inl k →
  ∃ pre v post, kwargs = pre ++ (k, v) :: post ∧
    Forall (λ kv, kv.1 ∈ ps.*1) pre ∧ k ∉ ps.*1.
Proof.
  revert ps. induction kwargs as [|[k' v'] rest IH]; intros ps Hb; [done|].
  simpl in Hb. destruct (Cli.set_parameter k' v' ps) as [ps'|] eqn:Hset.
  - apply set_parameter_names in Hset as [Hin Hnames].
    destruct (IH ps' Hb) as (pre & v & post & -> & Hpre & Hk).
    exists ((k', v') :: pre), v, post. rewrite Hnames in Hpre, Hk.
    split; [done|]. split; [by constructor|done].
  - simplify_eq. exists [], v', rest.
    split; [done|]. split; [constructor|by eapply set_parameter_unknown].
Qed.

Lemma bind_keywords_known ps kwargs :
  Forall (λ kv, kv.1 ∈ ps.*1) kwargs →
  ∃ ps', Cli.bind_keywords ps kwargs = inr ps' ∧ ps'.*1 = ps.*1.
Proof.
  revert ps. induction kwargs as [|[k v] rest IH]; intros ps Hall.
  - by exists ps.
  - apply Forall_cons in Hall as [Hk Hrest]. simpl in *.
    destruct (Cli.set_parameter k v ps) as [ps'|] eqn:Hset.
    + apply set_parameter_names in Hset as [_ Hnames].
      destruct (IH ps') as (ps'' & -> & Hn'); [by rewrite Hnames|].
      exists ps''. by rewrite Hn', Hnames.
    + by apply set_parameter_unknown in Hset.
Qed.

Lemma bind_keywords_bound ps kwargs ps' :
  Cli.bind_keywords ps kwargs = inr ps' →
  Forall (λ kv, kv.1 ∈ ps.*1) kwargs.
Proof.
  revert ps. induction kwargs as [|[k v] rest IH]; intros ps Hb; [constructor|].
  simpl in Hb. destruct (Cli.set_parameter k v ps) as [ps1|] eqn:Hset; [|done].
  apply set_parameter_names in Hset as [Hin Hnames].
  constructor; [done|]. rewrite <- Hnames. by apply IH.
Qed.

(** X14.  [run] of [server.py] takes [host], [port] and [reload] only: a
    call reaches [uvicorn.run] exactly when every keyword it passes is one
    of these, and otherwise Python refuses it, naming the first keyword that
    is not.  [main.py] passes [workers], so the [serve] task ends in a
    [TypeError] for every port and every number of workers and never starts
    the server, whereas [server.main] ([run(reload=True)]) starts it on
    0.0.0.0:8000 with reload. *)
Theorem serve_task_never_starts_server :
  (∀ kwargs,
     Forall (λ kv, kv.1 ∈ ["host"; "port"; "reload"]%string) kwargs ↔
     ∃ host port reload,
       Cli.run kwargs = Cli.UvicornRun "elit.server.server:app" host port reload) ∧
  (∀ kwargs k,
     Cli.run kwargs = Cli.TypeError k →
     ∃ pre v post, kwargs = pre ++ (k, v) :: post ∧
       Forall (λ kv, kv.1 ∈ ["host"; "port"; "reload"]%string) pre ∧
       k ∉ ["host"; "port"; "reload"]%string) ∧
  (∀ port workers, Cli.main_serve port workers = Cli.TypeError "workers") ∧
  Cli.server_main =
    Cli.UvicornRun "elit.server.server:app"
      (Cli.AStr "0.0.0.0") (Cli.AInt 8000) (Cli.ABool true).
Proof.
  split_and!; try done.
  - intros kwargs. unfold Cli.run. split.
    + intros Hall.
      destruct (bind_keywords_known Cli.run_parameters kwargs Hall)
        as (ps & -> & _).
      by eauto.
    + intros (host & port & reload & Hrun).
      destruct (Cli.bind_keywords Cli.run_parameters kwargs) as [k|ps] eqn:Hb;
        [done|].
      by apply bind_keywords_bound in Hb.
  - intros kwargs k. unfold Cli.run.
    destruct (Cli.bind_keywords Cli.run_parameters kwargs) as [k'|ps] eqn:Hb;
      [|done].
    intros [= ->]. by apply bind_keywords_unexpected in Hb.
Qed.

Section InteractiveProperties.

Context {Input Output Exn : Type}.
Variable strip : string → string.
Variable Input_of_text : string → Input.
Variable parse : list Input → list Output + Exn.

Local Abbreviation main_parse := (Cli.main_parse strip Input_of_text parse).

(** X15.  The [parse] task sends each line of stdin to the service on its
    own, stripped, as a batch of one, and prints the first document of the
    answer: the k-th document printed comes from the k-th line.  The loop
    prints one document per line until stdin is exhausted, or stops at the
    first line for which the service raises or returns an empty list,
    having printed the documents of all earlier lines. *)
Theorem interactive_parse_prints_in_order (stdin : list string) :
  let printed := fst (main_parse stdin) in
  (length printed ≤ length stdin)%nat ∧
  (∀ k doc, printed !! k = Some doc →
     ∃ line rest, stdin !! k = Some line ∧
       parse [Input_of_text (strip line)] = inl (doc :: rest)) ∧
  match snd (main_parse stdin) with
  | Cli.Exhausted => length printed = length stdin
  | Cli.ServiceRaised x =>
      ∃ line, stdin !! length printed = Some line ∧
        parse [Input_of_text (strip line)] = inr x
  | Cli.IndexError =>
      ∃ line, stdin !! length printed = Some line ∧
        parse [Input_of_text (strip line)] = inl []
  end.
Proof.
  induction stdin as [|line rest IH]; simpl.
  - split; [done|]. split; [|done]. intros k doc Hk. by destruct k.
  - destruct (parse [Input_of_text (strip line)]) as [[|doc docs]|x] eqn:Hp;
      simpl.
    + split; [lia|]. split; [by intros []|]. by exists line.
    + destruct (main_parse rest) as [printed e]. simpl in *.
      destruct IH as (Hlen & Hdocs & Hend).
      split; [lia|]. split.
      * intros [|k] d Hk; simpl in Hk.
        -- simplify_eq. by exists line, docs.
        -- by apply Hdocs.
      * destruct e; [by rewrite Hend|done..].
    + split; [lia|]. split; [by intros []|]. by exists line.
Qed.

End InteractiveProperties.

(** * The further statements at work on concrete runs *)

(** X1 at work: a request at a runner that was only constructed. *)
Lemma request_before_start_fails_witness :
  let s := Demo.run_from Demo.three [] in
  process_input Demo.three 10%nat s = (Raise AttributeError, with_task 10%nat s) ∧
  queue (with_task 10%nat s) = [] ∧
  ∀ es s', exec Demo.three es (with_task 10%nat s) = Some s' →
    (length (heap s) ∉ admitted_tasks s') ∧
    process_input_return (length (heap s)) s' = None.
Proof.
  apply (request_before_start_fails Demo.three
           (Demo.run_from Demo.three []) 10%nat).
  - apply reachable_run_from. by vm_compute.
  - by vm_compute.
Defined.

(** X2 at work: task 0 after the echo service has answered. *)
Lemma answered_task_was_delivered_witness :
  let s := Demo.run_from Demo.three (Demo.executing ++ [EFinish Demo.echo]) in
  let o := mkTask true 1 10%nat 0 (Some (VOut (Exn := nat) 10%nat)) in
  is_Some (output o) ∧ done_sets o = 1%nat ∧
  process_input_return 0 s = output o ∧
  0%nat ∈ concat (dispatched s) ∧ 0%nat ∉ queue s ++ in_flight s.
Proof.
  apply (answered_task_was_delivered Demo.three
           (Demo.run_from Demo.three (Demo.executing ++ [EFinish Demo.echo]))
           0%nat).
  - apply reachable_run_from. by vm_compute.
  - by vm_compute.
  - by vm_compute.
Defined.

(** X3 at work: the first and the last of three queued tasks. *)
Lemma queue_is_oldest_first_witness :
  let s := Demo.run_from Demo.three Demo.full_batch in
  queue s = [0; 1; 2]%nat ∧ now s = 2 ∧ (0 ≤ 2 ∧ 2 ≤ now s).
Proof.
  split; [by vm_compute|]. split; [by vm_compute|].
  apply (queue_is_oldest_first Demo.three
           (Demo.run_from Demo.three Demo.full_batch) 0%nat 2%nat 0%nat 2%nat
           (mkTask false 0 10%nat 0 None) (mkTask false 0 12%nat 2 None)).
  - apply reachable_run_from. by vm_compute.
  - lia.
  - by vm_compute.
  - by vm_compute.
  - by vm_compute.
  - by vm_compute.
Defined.

(** X4 at work: three queued tasks, five ticks after the last arrival. *)
Lemma longest_wait_is_longest_witness :
  let s := Demo.run_from Demo.three (Demo.full_batch ++ [ETick 5]) in
  model_runner_longest_wait s = (Ok (Some 7), s) ∧
  ∃ w,
    model_runner_longest_wait s = (Ok w, s) ∧
    (w = None ↔ queue s = []) ∧
    ∀ x, w = Some x →
      0 ≤ x ∧
      ∀ t o, t ∈ queue s → heap s !! t = Some o →
        0 ≤ now s - time o ∧ now s - time o ≤ x.
Proof.
  split; [by vm_compute|].
  apply (longest_wait_is_longest Demo.three
           (Demo.run_from Demo.three (Demo.full_batch ++ [ETick 5]))).
  apply reachable_run_from. by vm_compute.
Defined.

(** X5 at work: two queued tasks, batches of three. *)
Lemma queued_task_has_wakeup_witness :
  let s := Demo.run_from Demo.three Demo.two_arrivals in
  ∃ o, heap s !! 0%nat = Some o ∧
    (needs_processing s = Some true ∨
     ∃ h tm, needs_processing_timer s = Some h ∧ timers s !! h = Some tm ∧
             outstanding tm = true ∧ when tm = time o + max_wait Demo.three).
Proof.
  apply (queued_task_has_wakeup Demo.three
           (Demo.run_from Demo.three Demo.two_arrivals) 0%nat [1%nat]).
  - apply reachable_run_from. by vm_compute.
  - by vm_compute.
Defined.

(** X6 at work: one request, fifty ticks old. *)
Lemma overdue_task_can_be_dispatched_witness :
  let s := Demo.run_from Demo.three Demo.overdue in
  ∃ es s' tp batch,
    (es = [EWake] ∨ ∃ h, es = [EFire h; EWake]) ∧
    exec Demo.three es s = Some s' ∧ pc s' = Executing (0%nat :: tp) batch.
Proof.
  apply (overdue_task_can_be_dispatched Demo.three
           (Demo.run_from Demo.three Demo.overdue) 0%nat []
           (mkTask false 0 10%nat 0 None)).
  - apply reachable_run_from. by vm_compute.
  - by vm_compute.
  - by vm_compute.
  - by vm_compute.
  - by vm_compute.
  - by vm_compute.
Defined.

(** X7 at work: the batches [[0; 1]] and [[2]]. *)
Lemma dispatch_in_creation_order_witness :
  let s := Demo.run_from Demo.pair Demo.two_batches in
  admitted_tasks s = [0; 1; 2]%nat ∧
  increasing (admitted_tasks s) ∧
  ∀ m n b1 b2 t1 t2,
    dispatched s !! m = Some b1 → dispatched s !! n = Some b2 →
    (m < n)%nat → t1 ∈ b1 → t2 ∈ b2 → (t1 < t2)%nat.
Proof.
  split; [by vm_compute|].
  apply (dispatch_in_creation_order Demo.pair
           (Demo.run_from Demo.pair Demo.two_batches)).
  apply reachable_run_from. by vm_compute.
Defined.

(** X8 at work: from three queued tasks to two batches. *)
Lemma admitted_tasks_never_lost_witness :
  admitted_tasks (Demo.run_from Demo.pair Demo.full_batch)
    `prefix_of` admitted_tasks (Demo.run_from Demo.pair Demo.two_batches).
Proof.
  apply (admitted_tasks_never_lost Demo.pair Demo.second_batch).
  - apply reachable_run_from. by vm_compute.
  - by vm_compute.
Defined.

(** X9 at work: a full queue of two, batches of two. *)
Lemma dispatch_frees_capacity_witness :
  let s := Demo.run_from Demo.small Demo.two_queued in
  Z.of_nat (length (queue s)) = max_queue_size Demo.small ∧
  ∃ s',
    step Demo.small EWake s = Some s' ∧
    (length (queue s') < length (queue s))%nat ∧
    Z.of_nat (length (queue s')) < max_queue_size Demo.small ∧
    fst (process_input Demo.small 12%nat s') = Ok (length (heap s')).
Proof.
  split; [by vm_compute|].
  apply (dispatch_frees_capacity Demo.small
           (Demo.run_from Demo.small Demo.two_queued) 12%nat).
  - apply reachable_run_from. by vm_compute.
  - by vm_compute.
  - by vm_compute.
  - by vm_compute.
  - by vm_compute.
  - by vm_compute.
Defined.

(** X10 at work: the failing service on a batch of three. *)
Lemma failed_batch_answers_500_witness :
  let s := Demo.run_from Demo.three Demo.executing in
  ∃ s',
    step Demo.three (EFinish Demo.failing) s = Some s' ∧
    ∀ t, t ∈ [0; 1; 2]%nat →
      parse_answer Demo.isinstance_Document Demo.to_dict t s = None ∧
      parse_answer Demo.isinstance_Document Demo.to_dict t s' =
        Some (Raise (HandlingError "Internal Server Error" 500)).
Proof.
  apply (failed_batch_answers_500 Demo.isinstance_Document Demo.to_dict
           Demo.three (Demo.run_from Demo.three Demo.executing)
           [0; 1; 2]%nat [10; 11; 12]%nat Demo.failing 7%nat).
  - apply reachable_run_from. by vm_compute.
  - by vm_compute.
  - by vm_compute.
Defined.

(** X11 at work: the echo service; 10 and 12 are documents, 11 is not. *)
Lemma route_answers_from_own_output_witness :
  let s := Demo.run_from Demo.three Demo.executing in
  ∃ s',
    step Demo.three (EFinish Demo.echo) s = Some s' ∧
    parse_answer Demo.isinstance_Document Demo.to_dict 0 s' = Some (Ok 20%nat) ∧
    parse_answer Demo.isinstance_Document Demo.to_dict 1 s' =
      Some (Raise (HandlingError "Internal Server Error" 500)) ∧
    parse_answer Demo.isinstance_Document Demo.to_dict 2 s' = Some (Ok 24%nat).
Proof.
  destruct (route_answers_from_own_output Demo.isinstance_Document
              Demo.to_dict Demo.three
              (Demo.run_from Demo.three Demo.executing)
              [0; 1; 2]%nat [10; 11; 12]%nat Demo.echo [10; 11; 12]%nat)
    as (s' & Hstep & _); try by vm_compute.
  - apply reachable_run_from. by vm_compute.
  - exists s'. split; [exact Hstep|].
    vm_compute in Hstep. injection Hstep as <-. by vm_compute.
Defined.

(** X12 at work: one request at a runner with batches of zero. *)
Lemma zero_batch_size_answers_nobody_witness :
  let s := Demo.run_from Demo.zero [EStart; ESubmit 10%nat] in
  queue s = [0%nat] ∧
  concat (dispatched s) = [] ∧
  (∀ t o, heap s !! t = Some o → done_event o = false) ∧
  (pc s = Waiting → needs_processing s = Some true →
   ∃ s', step Demo.zero EWake s = Some s' ∧ pc s' = Executing [] [] ∧
         queue s' = queue s ∧ needs_processing s' = Some true).
Proof.
  split; [by vm_compute|].
  apply (zero_batch_size_answers_nobody Demo.zero
           (Demo.run_from Demo.zero [EStart; ESubmit 10%nat])).
  - by vm_compute.
  - apply reachable_run_from. by vm_compute.
Defined.

(** X13 at work: one request at a freshly started runner, sixty ticks
    later. *)
Lemma lone_request_waits_for_deadline_witness :
  let s := Demo.run_from Demo.three [EStart] in
  ∃ s2,
    exec Demo.three [ESubmit 10%nat; ETick 60] s = Some s2 ∧
    queue s2 = [length (heap s)] ∧ now s2 = now s + 60 ∧
    timers s2 = timers s ++ [mkTimer (now s + max_wait Demo.three) false true] ∧
    needs_processing_timer s2 = Some (length (timers s)) ∧
    step Demo.three EWake s2 = None ∧
    (∀ h s3, step Demo.three (EFire h) s2 = Some s3 → h = length (timers s)) ∧
    (max_wait Demo.three ≤ 60 →
     ∃ s3,
       exec Demo.three [EFire (length (timers s)); EWake] s2 = Some s3 ∧
       pc s3 = Executing [length (heap s)] [10%nat]).
Proof.
  apply (lone_request_waits_for_deadline Demo.three
           (Demo.run_from Demo.three [EStart]) 10%nat 60).
  - apply reachable_run_from. by vm_compute.
  - by vm_compute.
  - by vm_compute.
  - by vm_compute.
  - by vm_compute.
  - by vm_compute.
  - by vm_compute.
  - by vm_compute.
Defined.
